(** * The Mapbox-GL style compiler of the vector tiles reader plugin

    A shallow embedding of [plugin/style_converter/core/__init__.py].
    Python dicts are finite maps, Python lists are lists, exceptions are an
    explicit error type, and every function that can raise returns a
    [result]. *)

From Stdlib Require Import ZArith Lia Ascii SpecFloat.
From stdpp Require Import gmap strings list fin_maps pretty sorting.

(** ** Exceptions and the error monad *)

Inductive exn : Type :=
  | KeyError (key : string)
  | IndexError
  | TypeError
  | ValueError
  | AttributeError
  | AssertionError
  | RecursionError
  | OverflowError
  | RuntimeError (msg : string)
  | NotImplementedError.

Inductive result (A : Type) : Type :=
  | Ok (a : A)
  | Raise (e : exn).
Arguments Ok {A} a.
Arguments Raise {A} e.

#[global] Instance result_ret : MRet result := fun A a => Ok a.
#[global] Instance result_bind : MBind result :=
  fun A B f m => match m with Ok a => f a | Raise e => Raise e end.

(** [filter] with a predicate that can raise: the first exception aborts. *)
Fixpoint filterM {A} (p : A -> result bool) (l : list A) : result (list A) :=
  match l with
  | [] => Ok []
  | x :: l' =>
      b ← p x;
      r ← filterM p l';
      Ok (if b : bool then x :: r else r)
  end.

(** A [for] loop over [xs] threading the state [s]. *)
Fixpoint for_each {A S} (body : S -> A -> result S) (xs : list A) (s : S)
  : result S :=
  match xs with
  | [] => Ok s
  | x :: xs' => s' ← body s x; for_each body xs' s'
  end.

(** [itertools.groupby]: maximal runs of consecutive elements with equal
    keys, in order. *)
Fixpoint groupby {A K} `{EqDecision K} (key : A -> K) (l : list A)
  : list (K * list A) :=
  match l with
  | [] => []
  | x :: l' =>
      match groupby key l' with
      | (k, g) :: gs =>
          if decide (key x = k) then (k, x :: g) :: gs
          else (key x, [x]) :: (k, g) :: gs
      | [] => [(key x, [x])]
      end
  end.

(** ** Style bands as [process] sees them (lines 120-133)

    Of a band's dict the rendering-pass loop reads the keys ["name"],
    ["rule"] and ["zoom_level"] and writes ["rendering_pass"].  The key
    ["name"] is absent when the layer id is falsy ([get_styles], line 281);
    ["rule"] is the compiled filter or [None]; ["zoom_level"] is an int or
    [None]. *)

Module Pass.

Record style : Type := mkStyle {
  name : option string;
  rule : option string;
  zoom_level : option Z;
  rendering_pass : option nat
}.

#[global] Instance style_eq_dec : EqDecision style.
Proof. solve_decision. Defined.

Definition set_rendering_pass (n : nat) (s : style) : style :=
  mkStyle (name s) (rule s) (zoom_level s) (Some n).

(** [st["name"]] *)
Definition get_name (st : style) : result string :=
  match name st with
  | Some n => Ok n
  | None => Raise (KeyError "name")
  end.

(** The lambda of line 128:
    [st["name"] != name and st["rule"] == rule and zoom and
     st["zoom_level"] <= zoom].
    [and] evaluates left to right and stops at the first falsy operand;
    [zoom] is falsy when it is [None] or [0]; comparing [None] with an int
    raises [TypeError]. *)
Definition same_target (nm : string) (rl : option string) (zoom : option Z)
    (st : style) : result bool :=
  st_name ← get_name st;
  if bool_decide (st_name ≠ nm) then
    if bool_decide (rule st = rl) then
      match zoom with
      | None => Ok false
      | Some z =>
          if bool_decide (z = 0%Z) then Ok false
          else match zoom_level st with
               | None => Raise TypeError
               | Some z' => Ok (z' <=? z)%Z
               end
      end
    else Ok false
  else Ok false.

(** Lines 123-133 for one [index, style]. *)
Definition pass_of (styles : list style) (index : nat) (st : style)
  : result nat :=
  nm ← get_name st;
  styles_with_same_target ←
    filterM (same_target nm (rule st) (zoom_level st)) (take index styles);
  let groups_by_name := groupby name styles_with_same_target in
  Ok (length groups_by_name).

(** The body of the loop: [style["rendering_pass"] = ...] updates the band
    in place in the shared list. *)
Definition pass_step (styles : list style) (index : nat)
  : result (list style) :=
  match styles !! index with
  | None => Ok styles
  | Some st =>
      n ← pass_of styles index st;
      Ok (<[index := set_rendering_pass n st]> styles)
  end.

(** [for index, style in enumerate(styles): ...] *)
Definition assign_rendering_passes (styles : list style)
  : result (list style) :=
  for_each pass_step (seq 0 (length styles)) styles.





(** Equal names are adjacent: once a name is followed by another one it
    does not come back. *)
Fixpoint contiguous {K} (l : list K) : Prop :=
  match l with
  | [] => True
  | x :: l' => (x ∈ l' -> head l' = Some x) ∧ contiguous l'
  end.

(** Two bands agree on the keys the loop reads. *)
Definition same_keys (s1 s2 : style) : Prop :=
  name s1 = name s2 /\ rule s1 = rule s2 /\ zoom_level s1 = zoom_level s2.

(** Invariant of the loop before iteration [k]: [cur] is the list as the
    loop has updated it so far. *)
Record loop_inv (styles : list style) (k : nat) (cur : list style) : Prop := {
  inv_keys : Forall2 same_keys cur styles;
  inv_todo : forall i st, k <= i -> styles !! i = Some st -> cur !! i = Some st;
  inv_done : forall i st, i < k -> styles !! i = Some st ->
      exists n, pass_of styles i st = Ok n /\
                cur !! i = Some (set_rendering_pass n st)
}.

#[global] Instance contiguous_dec {K} `{EqDecision K} (l : list K) :
  Decision (contiguous l).
Proof. induction l as [|x l IH]; simpl; apply _. Defined.


Definition band (n : string) (r : option string) (z : option Z) : style :=
  mkStyle (Some n) r z None.

End Pass.

(** ** Python values

    JSON scalars as [json.loads] gives them; numbers with a fractional part
    are outside the model. *)

Inductive atom : Type :=
  | ANone
  | ABool (b : bool)
  | AInt (z : Z)
  | AStr (s : string).

#[global] Instance atom_eq_dec : EqDecision atom.
Proof. solve_decision. Defined.

(** [str(v)], which is also what ["{}".format(v)] inserts. *)
Definition py_str (v : atom) : string :=
  match v with
  | ANone => "None"
  | ABool true => "True"
  | ABool false => "False"
  | AInt z => pretty z
  | AStr s => s
  end.

(** [v == s] for a string [s]. *)
Definition eq_str (v : atom) (s : string) : bool :=
  match v with
  | AStr s' => bool_decide (s' = s)
  | _ => false
  end.

(** The one-character string of a double quote. *)
Definition dquote : string := String (ascii_of_nat 34) EmptyString.

(** [sep.join(l)] *)
Fixpoint py_join (sep : string) (l : list string) : string :=
  match l with
  | [] => EmptyString
  | [x] => x
  | x :: l' => x +:+ sep +:+ py_join sep l'
  end.

(** [s.startswith(p)] *)
Definition startswith (s p : string) : bool := String.prefix p s.

(** [p in s] for strings. *)
Fixpoint contains (p s : string) : bool :=
  String.prefix p s ||
  match s with
  | EmptyString => false
  | String _ s' => contains p s'
  end.

(** [assert b] *)
Definition py_assert (b : bool) : result unit :=
  if b then Ok () else Raise AssertionError.

(** [l[i]] for [i >= 0]. *)
Definition getitem {A} (l : list A) (i : nat) : result A :=
  match l !! i with
  | Some x => Ok x
  | None => Raise IndexError
  end.

(** ** Strings

    Strings hold ASCII text. *)

Definition lower_char (c : ascii) : ascii :=
  let n := nat_of_ascii c in
  if (65 <=? n)%nat && (n <=? 90)%nat then ascii_of_nat (n + 32) else c.

(** [s.lower()] *)
Fixpoint lower (s : string) : string :=
  match s with
  | EmptyString => EmptyString
  | String c s' => String (lower_char c) (lower s')
  end.

(** [s.replace(old, empty)] for a non-empty [old]: the occurrences of [old]
    are dropped from left to right; [skip] counts the characters of the
    occurrence that are still to drop. *)
Fixpoint remove_go (old : string) (skip : nat) (s : string) : string :=
  match s with
  | EmptyString => EmptyString
  | String c s' =>
      match skip with
      | S k => remove_go old k s'
      | O =>
          if String.prefix old s
          then remove_go old (String.length old - 1) s'
          else String c (remove_go old 0 s')
      end
  end.

Definition remove (old s : string) : string := remove_go old 0 s.

(** [s.split(sep)] for a one-character separator. *)
Fixpoint split (sep : ascii) (s : string) : list string :=
  match s with
  | EmptyString => [EmptyString]
  | String c s' =>
      if decide (c = sep) then EmptyString :: split sep s'
      else match split sep s' with
           | x :: r => String c x :: r
           | [] => [String c EmptyString]
           end
  end.

(** [[c + c for c in s]] joined: every character twice. *)
Fixpoint double_chars (s : string) : string :=
  match s with
  | EmptyString => EmptyString
  | String c s' => String c (String c (double_chars s'))
  end.

(** The value of a hexadecimal digit. *)
Definition hex_val (c : ascii) : option Z :=
  let n := nat_of_ascii c in
  if (48 <=? n)%nat && (n <=? 57)%nat then Some (Z.of_nat (n - 48))
  else if (97 <=? n)%nat && (n <=? 102)%nat then Some (Z.of_nat (n - 87))
  else if (65 <=? n)%nat && (n <=? 70)%nat then Some (Z.of_nat (n - 55))
  else None.

(** ASCII white space, which [fromhex] skips between bytes. *)
Definition is_space (c : ascii) : bool :=
  let n := nat_of_ascii c in
  ((9 <=? n)%nat && (n <=? 13)%nat) || (n =? 32)%nat.

(** [bytearray.fromhex(s)]: two hexadecimal digits for every byte, white
    space allowed before a byte. *)
Fixpoint fromhex (s : string) : result (list Z) :=
  match s with
  | EmptyString => Ok []
  | String c s' =>
      if is_space c then fromhex s'
      else match s' with
           | EmptyString => Raise ValueError
           | String d s'' =>
               match hex_val c, hex_val d with
               | Some hi, Some lo =>
                   rest ← fromhex s'';
                   Ok ((16 * hi + lo)%Z :: rest)
               | _, _ => Raise ValueError
               end
           end
  end.

(** Nested values: lists and dicts of values. *)
#[warnings="-register-all"]
Inductive pyval : Type :=
  | PAtom (a : atom)
  | PList (l : list pyval)
  | PDict (d : list (string * pyval)).

Definition PStr (s : string) : pyval := PAtom (AStr s).

(** [v == s] for a string [s]. *)
Definition pyval_eq_str (v : pyval) (s : string) : bool :=
  match v with
  | PAtom a => eq_str a s
  | _ => false
  end.

(** ** The colour normalizer (lines 448-494) *)

(** What the converter uses of Python's [float] and of [colorsys]: the type,
    [float(s)], the conversion of an int, [*], [/], [round(x)], [int(x)]
    and [colorsys.hls_to_rgb].  [round] and [int] raise on infinities and
    NaN.  [round_opaque] is [round(255.0 * 1)]. *)
Class PyFloat (F : Type) : Type := {
  float_of_string : string -> result F;
  float_of_Z : Z -> F;
  fmul : F -> F -> F;
  fdiv : F -> F -> F;
  py_round : F -> result Z;
  py_int : F -> result Z;
  hls_to_rgb : F -> F -> F -> F * F * F;
  round_opaque : py_round (fmul (float_of_Z 255) (float_of_Z 1)) = Ok 255%Z
}.

(** [map] with a function that can raise. *)
Fixpoint mapM {A B} (f : A -> result B) (l : list A) : result (list B) :=
  match l with
  | [] => Ok []
  | x :: l' => y ← f x; r ← mapM f l'; Ok (y :: r)
  end.

Module Color.
Section Color.

Context {F : Type} `{PyFloat F}.

(** [_get_match_expr] (lines 665-698) compiles a ["match"] colour; no
    property below depends on what it returns. *)
Variable _get_match_expr : list pyval -> result string.

(** The chain of [replace] calls of lines 469-477 and the [split]. *)
Definition color_components (color : string) : list string :=
  split ","
    (remove "%" (remove " " (remove ")" (remove "rgb(" (remove "rgba("
      (remove "hsl(" (remove "hsla(" color))))))).

Definition has_alpha (color : string) : bool :=
  startswith color "hsla(" || startswith color "rgba(".

Definition is_hsl (color : string) : bool := startswith color "hsl".

(** [",".join(map(str, ints))] *)
Definition csv (l : list Z) : string := py_join "," (pretty <$> l).

(** The list that [_get_color_string] joins (lines 488 and 494).  The alpha
    is the int [1] or the float [colors[3]]; both are multiplied by the
    float [255.0]. *)
Definition _get_color_channels (color : string) : result (list Z) :=
  let color := lower color in
  let has_alpha := has_alpha color in
  let is_hsl := is_hsl color in
  colors ← mapM float_of_string (color_components color);
  a ← (if has_alpha then getitem colors 3 else Ok (float_of_Z 1));
  if is_hsl then
    c0 ← getitem colors 0;
    let h := fdiv c0 (float_of_Z 360) in
    c1 ← getitem colors 1;
    let s := fdiv c1 (float_of_Z 100) in
    c2 ← getitem colors 2;
    let l_value := fdiv c2 (float_of_Z 100) in
    let '(r, g, b) := hls_to_rgb h l_value s in
    mapM (fun c => py_round (fmul (float_of_Z 255) c)) [r; g; b; a]
  else
    r ← getitem colors 0;
    g ← getitem colors 1;
    b ← getitem colors 2;
    a ← py_round (fmul (float_of_Z 255) a);
    rgb ← mapM py_int [r; g; b];
    Ok (rgb ++ [a]).

(** [_get_color_string], lines 465-494. *)
Definition _get_color_string (color : string) : result string :=
  channels ← _get_color_channels color;
  Ok (csv channels).

(** The hexadecimal branch of [parse_color], lines 455-460, for the text
    [color] that starts with ["#"]. *)
Definition parse_hex (color : string) : result string :=
  let color := remove "#" color in
  if bool_decide (String.length color = 3) then
    bytes ← fromhex (double_chars color);
    Ok (csv bytes)
  else if bool_decide (String.length color = 6) then
    Ok ("#" +:+ color)
  else
    bytes ← fromhex color;
    Ok (csv bytes).

(** [parse_color], lines 448-462.  Of the values that are neither a list
    nor a string none has a method [startswith]. *)
Definition parse_color (color : pyval) : result string :=
  match color with
  | PList l =>
      first ← getitem l 0;
      if negb (pyval_eq_str first "match") then Ok "255,0,0,0"
      else _get_match_expr l
  | PAtom (AStr s) =>
      if startswith s "#" then parse_hex s else _get_color_string s
  | _ => Raise AttributeError
  end.

End Color.
End Color.

(** ** Python's floats: IEEE 754 binary64

    The instance of [PyFloat] that closed evaluations use, on the
    specification of binary floating point of the Rocq core library. *)

Module Binary64.

Definition prec : Z := 53.
Definition emax : Z := 1024.

Definition of_Z (n : Z) : spec_float := binary_normalize prec emax n 0 false.

(** The float nearest to [n / d] (ties to even) for [0 <= n], [0 < d]:
    the quotient is taken with at least 66 bits and the rest of the division
    kept as one more bit. *)
Definition of_ratio (neg : bool) (n d : Z) : spec_float :=
  if (n =? 0)%Z then S754_zero neg
  else
    let s := Z.max 0 (66 + Z.log2 d - Z.log2 n) in
    let q := (n * 2 ^ s / d)%Z in
    let sticky := if ((n * 2 ^ s) mod d =? 0)%Z then 0%Z else 1%Z in
    binary_normalize prec emax (cond_Zopp neg (2 * q + sticky)) (- s - 1) false.

Definition is_digit (c : ascii) : bool :=
  let n := nat_of_ascii c in (48 <=? n)%nat && (n <=? 57)%nat.

Definition digit_val (c : ascii) : Z := Z.of_nat (nat_of_ascii c - 48).

(** The leading digits of [s]: their value on top of [acc], how many there
    are, and the rest of [s]. *)
Fixpoint digits (s : string) (acc : Z) (count : nat) : Z * nat * string :=
  match s with
  | String c s' =>
      if is_digit c then digits s' (10 * acc + digit_val c)%Z (S count)
      else (acc, count, s)
  | EmptyString => (acc, count, s)
  end.

Fixpoint lstrip (s : string) : string :=
  match s with
  | String c s' => if is_space c then lstrip s' else s
  | EmptyString => s
  end.

Definition strip (s : string) : string :=
  String.rev (lstrip (String.rev (lstrip s))).

Definition sign_of (s : string) : bool * string :=
  match s with
  | String c s' =>
      if decide (c = "-"%char) then (true, s')
      else if decide (c = "+"%char) then (false, s')
      else (false, s)
  | EmptyString => (false, s)
  end.

(** The exponent part: nothing, or [e], a sign and digits. *)
Definition exponent (s : string) : option Z :=
  match s with
  | EmptyString => Some 0%Z
  | String c s' =>
      if decide (c = "e"%char) then
        let '(neg, s'') := sign_of s' in
        match digits s'' 0 0 with
        | (v, S _, EmptyString) => Some (cond_Zopp neg v)
        | _ => None
        end
      else None
  end.

(** [float(s)] for decimal text: white space around, a sign, digits with
    an optional fraction and exponent, or [inf], [infinity], [nan].  The
    underscores Python allows between digits are not read. *)
Definition of_string (s : string) : result spec_float :=
  let '(neg, s) := sign_of (lower (strip s)) in
  if bool_decide (s = "inf" \/ s = "infinity") then Ok (S754_infinity neg)
  else if bool_decide (s = "nan") then Ok S754_nan
  else
    let '(ip, n1, s1) := digits s 0 0 in
    let '(m, n2, s2) :=
      match s1 with
      | String c s1' =>
          if decide (c = "."%char) then digits s1' ip 0 else (ip, 0%nat, s1)
      | EmptyString => (ip, 0%nat, s1)
      end in
    if (n1 + n2 =? 0)%nat then Raise ValueError
    else match exponent s2 with
         | None => Raise ValueError
         | Some e =>
             let e10 := (e - Z.of_nat n2)%Z in
             Ok (of_ratio neg (m * 10 ^ Z.max 0 e10) (10 ^ Z.max 0 (- e10)))
         end.

Definition to_int (x : spec_float) : result Z :=
  match x with
  | S754_zero _ => Ok 0%Z
  | S754_infinity _ => Raise OverflowError
  | S754_nan => Raise ValueError
  | S754_finite s m e =>
      Ok (cond_Zopp s (if (0 <=? e)%Z then Zpos m * 2 ^ e
                       else Zpos m / 2 ^ (- e))%Z)
  end.

(** [round(x)]: the nearest integer, ties to the even one. *)
Definition round (x : spec_float) : result Z :=
  match x with
  | S754_zero _ => Ok 0%Z
  | S754_infinity _ => Raise OverflowError
  | S754_nan => Raise ValueError
  | S754_finite s m e =>
      if (0 <=? e)%Z then Ok (cond_Zopp s (Zpos m * 2 ^ e))%Z
      else
        let d := (2 ^ (- e))%Z in
        let q := (Zpos m / d)%Z in
        let r := (Zpos m mod d)%Z in
        let q' := if (2 * r <? d)%Z then q
                  else if (d <? 2 * r)%Z then (q + 1)%Z
                  else if Z.even q then q else (q + 1)%Z in
        Ok (cond_Zopp s q')
  end.

Definition add := SFadd prec emax.
Definition sub := SFsub prec emax.
Definition mul := SFmul prec emax.
Definition div := SFdiv prec emax.

(** [x % 1.0] *)
Definition mod1 (x : spec_float) : spec_float :=
  match x with
  | S754_zero _ => S754_zero false
  | S754_infinity _ | S754_nan => S754_nan
  | S754_finite s m e =>
      if (0 <=? e)%Z then S754_zero false
      else
        let r := (Zpos m mod 2 ^ (- e))%Z in
        if (r =? 0)%Z then S754_zero false
        else
          let f := binary_normalize prec emax (cond_Zopp s r) e false in
          if s then add f (of_Z 1) else f
  end.

Definition ONE_THIRD := div (of_Z 1) (of_Z 3).
Definition ONE_SIXTH := div (of_Z 1) (of_Z 6).
Definition TWO_THIRD := div (of_Z 2) (of_Z 3).
Definition half := div (of_Z 1) (of_Z 2).

(** [colorsys._v] *)
Definition _v (m1 m2 hue : spec_float) : spec_float :=
  let hue := mod1 hue in
  if SFltb hue ONE_SIXTH then add m1 (mul (mul (sub m2 m1) hue) (of_Z 6))
  else if SFltb hue half then m2
  else if SFltb hue TWO_THIRD
       then add m1 (mul (mul (sub m2 m1) (sub TWO_THIRD hue)) (of_Z 6))
  else m1.

(** [colorsys.hls_to_rgb] *)
Definition colorsys_hls_to_rgb (h l s : spec_float)
  : spec_float * spec_float * spec_float :=
  if SFeqb s (of_Z 0) then (l, l, l)
  else
    let m2 := if SFleb l half then mul l (add (of_Z 1) s)
              else sub (add l s) (mul l s) in
    let m1 := sub (mul (of_Z 2) l) m2 in
    (_v m1 m2 (add h ONE_THIRD), _v m1 m2 h, _v m1 m2 (sub h ONE_THIRD)).

#[global] Instance binary64 : PyFloat spec_float := {|
  float_of_string := of_string;
  float_of_Z := of_Z;
  fmul := mul;
  fdiv := div;
  py_round := round;
  py_int := to_int;
  hls_to_rgb := colorsys_hls_to_rgb;
  round_opaque := eq_refl
|}.

End Binary64.

(** ** Statements about colours *)

(** Every character is a hexadecimal digit. *)
Fixpoint all_hex (s : string) : bool :=
  match s with
  | EmptyString => true
  | String c s' => bool_decide (is_Some (hex_val c)) && all_hex s'
  end.

(** The value of a digit, [0] for another character. *)
Definition hv (c : ascii) : Z := default 0%Z (hex_val c).

(** The bytes that pairs of digits denote. *)
Fixpoint bytes_of_hex (s : string) : list Z :=
  match s with
  | String c (String d s') => (16 * hv c + hv d)%Z :: bytes_of_hex s'
  | _ => []
  end.

(** The bytes of the digits, every digit taken twice. *)
Fixpoint doubled_bytes (s : string) : list Z :=
  match s with
  | EmptyString => []
  | String c s' => (16 * hv c + hv c)%Z :: doubled_bytes s'
  end.

(** What [parse_color] gives for ["#" + h] when [h] consists of
    hexadecimal digits. *)
Definition hex_result (h : string) : result string :=
  if bool_decide (String.length h = 6) then Ok ("#" +:+ h)
  else if bool_decide (String.length h = 3) then Ok (Color.csv (doubled_bytes h))
  else if Nat.even (String.length h) then Ok (Color.csv (bytes_of_hex h))
  else Raise ValueError.

(** The claim of the specification for three digits: the three doubled
    bytes and an alpha of 255. *)
Definition spec_hex3_claim : Prop :=
  forall F (HF : PyFloat F) gme d1 d2 d3,
    all_hex (String d1 (String d2 (String d3 EmptyString))) = true ->
    Color.parse_color gme (PStr (String "#" (String d1 (String d2 (String d3 EmptyString)))))
    = Ok (Color.csv [(16 * hv d1 + hv d1)%Z; (16 * hv d2 + hv d2)%Z;
                     (16 * hv d3 + hv d3)%Z; 255%Z]).


Section Designed.
Context {F : Type} `{PyFloat F}.
(** What [_get_color_string] computes from the parsed components: the
    alpha [255] unless the text starts with [rgba(] or [hsla(], else
    [round(255.0 * colors[3])]; for [hsl] the colour channels are
    [round(255.0 * c)] of the [colorsys] transform, for [rgb] they are
    [int(c)] of the components. *)
Definition channels_as_designed (color out : string) : Prop :=
  let c := lower color in
  exists (colors : list F) (c0 c1 c2 : F) (r g b a : Z),
    mapM float_of_string (Color.color_components c) = Ok colors /\
    colors !! 0%nat = Some c0 /\ colors !! 1%nat = Some c1 /\
    colors !! 2%nat = Some c2 /\
    out = Color.csv [r; g; b; a] /\
    (if Color.has_alpha c
     then exists c3, colors !! 3%nat = Some c3 /\
                     py_round (fmul (float_of_Z 255) c3) = Ok a
     else a = 255%Z) /\
    (if Color.is_hsl c
     then let '(x, y, z) := hls_to_rgb (fdiv c0 (float_of_Z 360))
                              (fdiv c2 (float_of_Z 100))
                              (fdiv c1 (float_of_Z 100)) in
          py_round (fmul (float_of_Z 255) x) = Ok r /\
          py_round (fmul (float_of_Z 255) y) = Ok g /\
          py_round (fmul (float_of_Z 255) z) = Ok b
     else py_int c0 = Ok r /\ py_int c1 = Ok g /\ py_int c2 = Ok b).
End Designed.

(** The claim of the specification on the range of the channels. *)
Definition spec_channels_claim : Prop :=
  forall color channels,
    Color._get_color_channels (F := spec_float) color = Ok channels ->
    Forall (fun c => (0 <= c <= 255)%Z) channels.


(** A [_get_match_expr] for closed evaluations that do not reach it. *)
Definition no_match : list pyval -> result string :=
  fun _ => Raise AssertionError.


(** ** Truth and equality of values *)

(** [bool(v)] *)
Definition truthy (v : pyval) : bool :=
  match v with
  | PAtom ANone => false
  | PAtom (ABool b) => b
  | PAtom (AInt z) => negb (z =? 0)%Z
  | PAtom (AStr s) => negb (bool_decide (s = EmptyString))
  | PList l => negb (bool_decide (l = []))
  | PDict d => negb (bool_decide (d = []))
  end.

(** [a == b] for scalars: [True] and [False] are the ints 1 and 0. *)
Definition atom_eqb (a b : atom) : bool :=
  match a, b with
  | ANone, ANone => true
  | ABool x, ABool y => bool_decide (x = y)
  | ABool x, AInt y | AInt y, ABool x => (y =? (if x then 1 else 0))%Z
  | AInt x, AInt y => (x =? y)%Z
  | AStr x, AStr y => bool_decide (x = y)
  | _, _ => false
  end.

(** The value of a key of a dict given as its list of items. *)
Fixpoint items_get (k : string) (d : list (string * pyval)) : option pyval :=
  match d with
  | [] => None
  | (k', v) :: d' => if decide (k = k') then Some v else items_get k d'
  end.

(** [a == b]: lists are equal item by item, dicts when they have the same
    keys with equal values. *)
Fixpoint py_eqb (a b : pyval) : bool :=
  match a, b with
  | PAtom x, PAtom y => atom_eqb x y
  | PList l1, PList l2 =>
      (fix go (l1 l2 : list pyval) : bool :=
         match l1, l2 with
         | [], [] => true
         | x :: l1', y :: l2' => py_eqb x y && go l1' l2'
         | _, _ => false
         end) l1 l2
  | PDict d1, PDict d2 =>
      (length d1 =? length d2)%nat &&
      (fix go (d : list (string * pyval)) : bool :=
         match d with
         | [] => true
         | (k, v) :: d' =>
             match items_get k d2 with
             | Some v' => py_eqb v v'
             | None => false
             end && go d'
         end) d1
  | _, _ => false
  end.

(** ** Resolution of [ref] (lines 60-78 and 92-94)

    A layer is a dict.  The layers of the document are one list of dicts
    that every call shares and updates in place: a layer is named by its
    position in that list. *)

Module Refs.

Abbreviation layer := (gmap string pyval).

(** [_get_value_safe] (lines 606-610) on a dict. *)
Definition _get_value_safe (value : layer) (path : string) : pyval :=
  if bool_decide (path = EmptyString) then PAtom ANone
  else default (PAtom ANone) (value !! path).

(** Lines 75-77: [for prop in target_layer: if prop != "paint":
    layer[prop] = target_layer[prop]]. *)
Definition copy_props (target_layer lyr : layer) : layer :=
  map_fold (fun prop v acc => if decide (prop ≠ "paint") then <[prop := v]> acc
                              else acc)
           lyr target_layer.

(** [matching_layers[0]] of line 72-74, as a position. *)
Definition first_match (ref : pyval) (all_layers : list layer) : option nat :=
  fst <$> list_find (fun l => py_eqb (_get_value_safe l "id") ref = true)
                    all_layers.

(** [_apply_source_layer], lines 60-78, for the layer at position [idx].
    [depth] is the number of calls the interpreter still allows; one more
    raises [RecursionError]. *)
Fixpoint _apply_source_layer (depth : nat) (idx : nat)
    (all_layers : list layer) : result (list layer) :=
  match depth with
  | O => Raise RecursionError
  | S depth' =>
      match all_layers !! idx with
      | None => Ok all_layers
      | Some lyr =>
          let ref := _get_value_safe lyr "ref" in
          if truthy ref then
            match first_match ref all_layers with
            | Some t =>
                match all_layers !! t with
                | Some target_layer =>
                    let all_layers' :=
                      <[idx := copy_props target_layer lyr]> all_layers in
                    _apply_source_layer depth' t all_layers'
                | None => Ok all_layers
                end
            | None => Ok all_layers
            end
          else Ok all_layers
      end
  end.

(** Lines 92-94 of [process]: what the loop over the layers does to the
    layers.  The rest of the loop body reads the layer and writes only to
    the styles. *)
Definition process_step (depth : nat) (all_layers : list layer) (idx : nat)
  : result (list layer) :=
  match all_layers !! idx with
  | Some l =>
      if bool_decide (is_Some (l !! "ref"))
      then _apply_source_layer depth idx all_layers
      else Ok all_layers
  | None => Ok all_layers
  end.

Definition process_refs (depth : nat) (all_layers : list layer)
  : result (list layer) :=
  for_each (process_step depth) (seq 0 (length all_layers)) all_layers.

(** The claim of the specification that compilation leaves every layer as
    it was. *)
Definition spec_read_only_claim : Prop :=
  forall depth all_layers out,
    process_refs depth all_layers = Ok out -> out = all_layers.

(** What ref resolution leaves alone: the number of layers, the [paint]
    of every layer, and every layer whose [ref] is absent or falsy. *)
Definition frame (before after : list layer) : Prop :=
  length after = length before /\
  forall i l, before !! i = Some l ->
    exists l', after !! i = Some l' /\
      l' !! "paint" = l !! "paint" /\
      (truthy (_get_value_safe l "ref") = false -> l' = l).

(** What ref resolution can write: a layer never loses a property, and
    every property of a layer afterwards is the value of the same property
    in a layer of the document before, the layer itself or another one. *)
Definition inherited (before after : list layer) : Prop :=
  forall i l', after !! i = Some l' ->
    exists l, before !! i = Some l /\
      (forall k, is_Some (l !! k) -> is_Some (l' !! k)) /\
      (forall k v, l' !! k = Some v ->
         exists j lj, before !! j = Some lj /\ lj !! k = Some v).

(** A dict from its items. *)
Definition mk (items : list (string * pyval)) : layer := list_to_map items.

(** A chain of refs: [c] refers to [b], [b] refers to the root [a]. *)
Definition layer_a : layer :=
  mk [("id", PStr "a"); ("source-layer", PStr "roads"); ("type", PStr "line")].
Definition layer_b : layer :=
  mk [("id", PStr "b"); ("ref", PStr "a"); ("minzoom", PAtom (AInt 3))].
Definition layer_c : layer :=
  mk [("id", PStr "c"); ("ref", PStr "b");
      ("paint", PDict [("line-color", PStr "#fff")])].

End Refs.

(** ** The layer style builder (lines 243-356 and 497-509) *)

Module Styles.

Abbreviation layer := (gmap string pyval).

(** The upper bound of the map scale for every zoom level. *)
Definition upper_bound_map_scales_by_zoom_level : gmap Z Z :=
  list_to_map
    [(0, 1000000000); (1, 1000000000); (2, 500000000); (3, 200000000);
     (4, 50000000); (5, 25000000); (6, 12500000); (7, 6500000);
     (8, 3000000); (9, 1500000); (10, 750000); (11, 400000); (12, 200000);
     (13, 100000); (14, 50000); (15, 25000); (16, 12500); (17, 5000);
     (18, 2500); (19, 1500); (20, 750); (21, 500); (22, 250); (23, 100);
     (24, 0)]%Z.

(** [upper_bound_map_scales_by_zoom_level[zoom]] *)
Definition scale_of_zoom (zoom : option Z) : result Z :=
  match zoom with
  | Some z =>
      match upper_bound_map_scales_by_zoom_level !! z with
      | Some bound => Ok bound
      | None => Raise (KeyError (pretty z))
      end
  | None => Raise (KeyError "None")
  end.

(** A property as [get_properties_values_for_zoom] returns it. *)
Record PropertyValue : Type := mkProperty {
  pv_name : string;
  pv_zoom_level : option Z;
  pv_value : pyval;
  pv_is_qgis_expr : bool
}.

(** A style band: the keys of [base_style] (line 279), the ["name"], and
    the properties, whose names are the last parts of the paths of lines
    290-314 and so none of the other keys. *)
Record band : Type := mkBand {
  zoom_level : option Z;
  min_scale_denom : option Z;
  max_scale_denom : option Z;
  name : option pyval;
  props : gmap string pyval
}.

Definition set_prop (k : string) (v : pyval) (s : band) : band :=
  mkBand (zoom_level s) (min_scale_denom s) (max_scale_denom s) (name s)
         (<[k := v]> (props s)).

Definition set_zoom_level (zoom : Z) (s : band) : band :=
  mkBand (Some zoom) (min_scale_denom s) (max_scale_denom s) (name s)
         (props s).

Definition set_scale_range (lo hi : Z) (s : band) : band :=
  mkBand (zoom_level s) (Some lo) (Some hi) (name s) (props s).

(** One call of [get_properties_values_for_zoom] in [get_styles]. *)
Record call : Type := mkCall {
  property_path : string;
  is_color : bool;
  is_expression : bool;
  can_interpolate : bool;
  default_value : option pyval;
  take_fields : option nat
}.

Definition plain (path : string) : call :=
  mkCall path false false false None None.
Definition color (path : string) (default : option pyval) : call :=
  mkCall path true false false default None.
Definition expression (path : string) (take : option nat) : call :=
  mkCall path false true false None take.
Definition interpolated (path : string) (default : option pyval) : call :=
  mkCall path false false true default None.

(** Lines 288-314. *)
Definition fill_calls : list call :=
  [color "paint/fill-color" (Some (PStr "rgba(0,0,0,0)"));
   color "paint/fill-outline-color" None;
   plain "paint/fill-translate";
   plain "paint/fill-opacity";
   expression "paint/fill-pattern" None].

Definition line_calls : list call :=
  [plain "layout/line-join";
   plain "layout/line-cap";
   interpolated "paint/line-width" (Some (PAtom (AInt 0)));
   color "paint/line-color" (Some (PStr "rgba(0,0,0,0)"));
   plain "paint/line-opacity";
   plain "paint/line-dasharray"].

Definition symbol_calls : list call :=
  [expression "layout/icon-image" None;
   plain "layout/text-font";
   plain "layout/text-transform";
   interpolated "layout/text-size" None;
   expression "layout/text-field" (Some 1%nat);
   plain "layout/text-max-width";
   color "paint/text-color" None;
   interpolated "paint/text-halo-width" None;
   color "paint/text-halo-color" None].

Definition calls_of (layer_type : pyval) : list call :=
  if pyval_eq_str layer_type "fill" then fill_calls
  else if pyval_eq_str layer_type "line" then line_calls
  else if pyval_eq_str layer_type "symbol" then symbol_calls
  else [].

(** Lines 316-323: a value without zoom level goes to the base style, the
    others are collected by zoom level. *)
Definition add_value (st : band * gmap Z (list PropertyValue))
    (v : PropertyValue) : band * gmap Z (list PropertyValue) :=
  match pv_zoom_level v with
  | None => (set_prop (pv_name v) (pv_value v) st.1, st.2)
  | Some zoom => (st.1, <[zoom := default [] (st.2 !! zoom) ++ [v]]> st.2)
  end.

(** [if zoom not in values_by_zoom: values_by_zoom[zoom] = []] *)
Definition ensure_zoom (zoom : Z) (values_by_zoom : gmap Z (list PropertyValue))
  : gmap Z (list PropertyValue) :=
  match values_by_zoom !! zoom with
  | Some _ => values_by_zoom
  | None => <[zoom := []]> values_by_zoom
  end.

(** [sorted(values_by_zoom.keys())] *)
Definition sorted_zooms (values_by_zoom : gmap Z (list PropertyValue))
  : list Z :=
  merge_sort Z.le (elements (dom values_by_zoom)).

(** Lines 337-344: every band is a deep copy of the one before, with its
    zoom level and the values of that zoom level on top. *)
Fixpoint forward (values_by_zoom : gmap Z (list PropertyValue))
    (clone : band) (zooms : list Z) : list band :=
  match zooms with
  | [] => []
  | zoom :: rest =>
      let values := default [] (values_by_zoom !! zoom) in
      let clone' :=
        foldl (fun c v => set_prop (pv_name v) (pv_value v) c)
              (set_zoom_level zoom clone) values in
      clone' :: forward values_by_zoom clone' rest
  end.

(** Lines 349-351: [for k in s: if k not in next_style: next_style[k] =
    s[k]].  The keys of [base_style] are in every band. *)
Definition fill_missing (next_style s : band) : band :=
  mkBand (zoom_level next_style) (min_scale_denom next_style)
         (max_scale_denom next_style)
         (match name next_style with Some n => Some n | None => name s end)
         (map_fold (fun k v acc => match acc !! k with
                                   | Some _ => acc
                                   | None => <[k := v]> acc
                                   end)
                   (props next_style) (props s)).

(** Lines 345-351 on the reversed list: every band hands its keys to the
    band after it, which has just received those of the band before. *)
Fixpoint backfill_from (s : band) (rest : list band) : list band :=
  match rest with
  | [] => []
  | next_style :: rest' =>
      let next_style' := fill_missing next_style s in
      next_style' :: backfill_from next_style' rest'
  end.

Definition backfill (styles_backwards : list band) : list band :=
  match styles_backwards with
  | [] => []
  | s :: rest => s :: backfill_from s rest
  end.

(** A stable sort by an integer key. *)
Fixpoint insert_by {A} (key : A -> Z) (x : A) (l : list A) : list A :=
  match l with
  | [] => [x]
  | y :: l' => if (key x <=? key y)%Z then x :: l
               else y :: insert_by key x l'
  end.

Fixpoint sort_by {A} (key : A -> Z) (l : list A) : list A :=
  match l with
  | [] => []
  | x :: l' => insert_by key x (sort_by key l')
  end.

(** [sorted(resulting_styles, key=lambda st: st["zoom_level"])]: two or
    more bands are compared, and [None] compares with nothing. *)
Definition sorted_by_zoom (styles : list band) : result (list band) :=
  match styles with
  | [] | [_] => Ok styles
  | _ =>
      _ ← mapM (fun s => match zoom_level s with
                         | Some z => Ok z
                         | None => Raise TypeError
                         end) styles;
      Ok (sort_by (fun s => default 0%Z (zoom_level s)) styles)
  end.

(** The body of the loop of [_apply_scale_range], lines 498-509. *)
Definition scale_step (styles : list band) (index : nat)
  : result (list band) :=
  match styles !! index with
  | None => Ok styles
  | Some s =>
      match zoom_level s with
      | None => Ok styles
      | Some z =>
          max_scale ← scale_of_zoom (Some z);
          min_scale ←
            (if bool_decide (index = length styles - 1) then Ok 1%Z
             else next ← getitem styles (index + 1);
                  scale_of_zoom (zoom_level next));
          Ok (<[index := set_scale_range min_scale max_scale s]> styles)
      end
  end.

(** [_apply_scale_range], lines 497-509. *)
Definition _apply_scale_range (styles : list band) : result (list band) :=
  for_each scale_step (seq 0 (length styles)) styles.

(** [layer[key]] *)
Definition layer_get (l : layer) (key : string) : result pyval :=
  match l !! key with
  | Some v => Ok v
  | None => Raise (KeyError key)
  end.

Section GetStyles.

(** [get_properties_values_for_zoom] (lines 521-593) compiles the values
    of one property; no property below depends on what it returns.
    [py_int] is Python's [int(x)]. *)
Variable get_properties_values_for_zoom : layer -> call -> result (list PropertyValue).
Variable py_int : pyval -> result Z.

(** [if key in layer: zoom = int(layer[key]); ...], lines 325-332. *)
Definition add_layer_zoom (l : layer) (key : string)
    (values_by_zoom : gmap Z (list PropertyValue))
  : result (gmap Z (list PropertyValue)) :=
  match l !! key with
  | Some v => zoom ← py_int v; Ok (ensure_zoom zoom values_by_zoom)
  | None => Ok values_by_zoom
  end.

(** [get_styles], lines 272-356. *)
Definition get_styles (l : layer) : result (list band) :=
  layer_id ← layer_get l "id";
  if negb (bool_decide (is_Some (l !! "type")))
  then Raise (RuntimeError "'type' not set on layer")
  else
    layer_type ← layer_get l "type";
    let base_style :=
      mkBand None None None
             (if truthy layer_id then Some layer_id else None) ∅ in
    values ← mapM (get_properties_values_for_zoom l) (calls_of layer_type);
    let all_values := concat values in
    let '(base_style, values_by_zoom) :=
      foldl add_value (base_style, ∅) all_values in
    values_by_zoom ← add_layer_zoom l "minzoom" values_by_zoom;
    values_by_zoom ← add_layer_zoom l "maxzoom" values_by_zoom;
    let resulting_styles :=
      if bool_decide (values_by_zoom = ∅) then [base_style]
      else
        let resulting_styles :=
          forward values_by_zoom base_style (sorted_zooms values_by_zoom) in
        reverse (backfill (reverse resulting_styles)) in
    resulting_styles ← sorted_by_zoom resulting_styles;
    _apply_scale_range resulting_styles.

End GetStyles.

(** What the specification says of a band sequence: ascending zoom levels,
    the upper scale bound of the band's own zoom level, the lower one of
    the next band's zoom level, or [1] for the last band. *)
Definition scale_ranges_ok (bands : list band) : Prop :=
  forall i b z,
    bands !! i = Some b -> zoom_level b = Some z ->
    max_scale_denom b = upper_bound_map_scales_by_zoom_level !! z /\
    is_Some (max_scale_denom b) /\
    match bands !! S i with
    | None => min_scale_denom b = Some 1%Z
    | Some b' =>
        exists z', zoom_level b' = Some z' /\ (z < z')%Z /\
                   min_scale_denom b = upper_bound_map_scales_by_zoom_level !! z' /\
                   is_Some (min_scale_denom b)
    end.

End Styles.

(** ** The filter compiler (lines 228-234 and 701-740) *)

Module Filter.

Definition _comparision_operators : gmap string string :=
  list_to_map [("match", "="); ("==", "="); ("<=", "<="); (">=", ">=");
               ("<", "<"); (">", ">"); ("!=", "!=")].

Definition _membership_operators : gmap string string :=
  list_to_map [("in", "in"); ("!in", "not in")].

Definition _existential_operators : gmap string string :=
  list_to_map [("has", "is not null"); ("!has", "is null")].

(** [table[k]] and [k in table] for a key that is any scalar: only strings
    are keys of the tables. *)
Definition table_get (table : gmap string string) (k : atom) : option string :=
  match k with
  | AStr s => table !! s
  | _ => None
  end.

Definition table_mem (table : gmap string string) (k : atom) : bool :=
  bool_decide (is_Some (table_get table k)).

(** [v.startswith(p)]: only [str] has the method. *)
Definition atom_startswith (v : atom) (p : string) : result bool :=
  match v with
  | AStr s => Ok (startswith s p)
  | _ => Raise AttributeError
  end.

(** [_get_comparision_expr], lines 701-718.  [None] is "no predicate". *)
Definition _get_comparision_expr (mb_filter : list atom)
  : result (option string) :=
  op0 ← getitem mb_filter 0;
  _ ← py_assert (table_mem _comparision_operators op0);
  _ ← py_assert (bool_decide (length mb_filter = 3));
  op ← from_option Ok (Raise (KeyError (py_str op0)))
         (table_get _comparision_operators op0);
  attr ← getitem mb_filter 1;
  value ← getitem mb_filter 2;
  if eq_str attr "$type" then Ok None
  else
    at_sign ← atom_startswith attr "@";
    let attr_in_quotes := negb at_sign in
    let attr := if attr_in_quotes then dquote +:+ py_str attr +:+ dquote
                else py_str attr in
    let null_allowed := bool_decide (op = "!=") in
    let attr :=
      if null_allowed then attr +:+ " is null or " +:+ attr
      else attr +:+ " is not null and " +:+ attr in
    Ok (Some (attr +:+ " " +:+ op +:+ " '" +:+ py_str value +:+ "'")).

(** [_get_membership_expr], lines 721-732. *)
Definition _get_membership_expr (mb_filter : list atom) : result string :=
  op0 ← getitem mb_filter 0;
  _ ← py_assert (table_mem _membership_operators op0);
  _ ← py_assert (bool_decide (3 <= length mb_filter));
  attr ← getitem mb_filter 1;
  let what := dquote +:+ py_str attr +:+ dquote in
  op ← from_option Ok (Raise (KeyError (py_str op0)))
         (table_get _membership_operators op0);
  let collection :=
    "(" +:+ py_join ", " ((fun e => "'" +:+ py_str e +:+ "'") <$> drop 2 mb_filter)
        +:+ ")" in
  is_not ← atom_startswith op0 "!";
  let null_str := if is_not : bool then "is null or" else "is not null and" in
  Ok ("(" +:+ what +:+ " " +:+ null_str +:+ " " +:+ what +:+ " " +:+ op
          +:+ " " +:+ collection +:+ ")").

(** [_get_existential_expr], lines 735-740. *)
Definition _get_existential_expr (mb_filter : list atom) : result string :=
  op0 ← getitem mb_filter 0;
  _ ← py_assert (table_mem _existential_operators op0);
  _ ← py_assert (bool_decide (length mb_filter = 2));
  op ← from_option Ok (Raise (KeyError (py_str op0)))
         (table_get _existential_operators op0);
  key ← getitem mb_filter 1;
  Ok ("attribute($currentfeature, '" +:+ py_str key +:+ "') " +:+ op).





(** The shape the specification gives for a membership filter:
    [(attr is [not] null or attr [not ]in (v1, v2, ...))], for some text of
    the attribute and of the values. *)
Definition spec_membership_shape (out : string) : Prop :=
  exists a n1 n2 vs,
    (n1 = EmptyString \/ n1 = "not ") /\ (n2 = EmptyString \/ n2 = "not ") /\
    out = "(" +:+ a +:+ " is " +:+ n1 +:+ "null or " +:+ a +:+ " " +:+ n2
              +:+ "in (" +:+ vs +:+ "))".

(** [", ".join(...)] of the values in single quotes (line 726). *)
Definition quoted_values (vs : list atom) : string :=
  py_join ", " ((fun e => "'" +:+ py_str e +:+ "'") <$> vs).

(** The claim of the specification for the two membership operators. *)
Definition spec_membership_claim : Prop :=
  forall op attr v vs,
    op = "in" \/ op = "!in" ->
    exists out,
      _get_membership_expr (AStr op :: attr :: v :: vs) = Ok out /\
      spec_membership_shape out.

End Filter.

(** ** Statements about style bands *)

Module Bands.
Import Styles.

(** The rows of [upper_bound_map_scales_by_zoom_level]. *)
Definition scale_rows : list (Z * Z) :=
  [(0, 1000000000); (1, 1000000000); (2, 500000000); (3, 200000000);
     (4, 50000000); (5, 25000000); (6, 12500000); (7, 6500000);
     (8, 3000000); (9, 1500000); (10, 750000); (11, 400000); (12, 200000);
     (13, 100000); (14, 50000); (15, 25000); (16, 12500); (17, 5000);
     (18, 2500); (19, 1500); (20, 750); (21, 500); (22, 250); (23, 100);
     (24, 0)]%Z.

(** Zoom levels go up strictly from one band to the next. *)
Definition ascending (l : list band) : Prop :=
  forall i b b', l !! i = Some b -> l !! S i = Some b' ->
    exists z z', zoom_level b = Some z /\ zoom_level b' = Some z' /\ (z < z')%Z.

(** The bands before the scale ranges are assigned. *)
Definition bands_before_range (base : band)
    (values_by_zoom : gmap Z (list PropertyValue)) : list band :=
  if bool_decide (values_by_zoom = ∅) then [base]
  else reverse (backfill (reverse
         (forward values_by_zoom base (sorted_zooms values_by_zoom)))).

(** The scale range of the band at position [i] of [l], once assigned. *)
Definition range_ok_at (l : list band) (i : nat) (b : band) : Prop :=
  forall z, zoom_level b = Some z ->
    max_scale_denom b = upper_bound_map_scales_by_zoom_level !! z /\
    is_Some (max_scale_denom b) /\
    match l !! S i with
    | None => min_scale_denom b = Some 1%Z
    | Some b' =>
        exists z', zoom_level b' = Some z' /\ (z < z')%Z /\
          min_scale_denom b = upper_bound_map_scales_by_zoom_level !! z' /\
          is_Some (min_scale_denom b)
    end.

(** Invariant of the loop of [_apply_scale_range] before iteration [k]. *)
Record scale_inv (l : list band) (k : nat) (cur : list band) : Prop := {
  scale_zooms : zoom_level <$> cur = zoom_level <$> l;
  scale_done : forall i b, i < k -> cur !! i = Some b -> range_ok_at l i b
}.

(** Apart from the scale range a band leaves [_apply_scale_range] as it
    entered. *)
Definition same_style (a b : band) : Prop :=
  zoom_level a = zoom_level b /\ name a = name b /\ props a = props b.

(** The zoom levels that occur in a list of property values. *)
Definition zooms_of (vs : list PropertyValue) : gset Z :=
  list_to_set (omap pv_zoom_level vs).

(** The zoom level that [minzoom] or [maxzoom] adds. *)
Definition layer_zoom (py_int : pyval -> result Z) (l : layer) (key : string)
  : result (gset Z) :=
  match l !! key with
  | Some v => zoom ← py_int v; Ok {[zoom]}
  | None => Ok ∅
  end.

End Bands.

(** ** A resolver and a layer for closed evaluations *)

Module StylesExample.
Import Styles.

(** [_get_value_safe] (lines 606-610) on any value. *)
Definition value_get (value : pyval) (path : string) : pyval :=
  match value with
  | PDict d =>
      if bool_decide (path = EmptyString) then PAtom ANone
      else default (PAtom ANone) (items_get path d)
  | _ => PAtom ANone
  end.

(** [_get_property_value], lines 512-518. *)
Definition _get_property_value (obj : layer) (property_path : string)
  : pyval * string :=
  let parts := split "/" property_path in
  let value :=
    match parts with
    | [] => PAtom ANone
    | p :: rest => foldl value_get (Refs._get_value_safe obj p) rest
    end in
  (value, default EmptyString (last parts)).

Definition is_none (v : pyval) : bool :=
  match v with
  | PAtom ANone => true
  | _ => false
  end.

(** [int(x)] for an int or a bool. *)
Definition int_of (v : pyval) : result Z :=
  match v with
  | PAtom (AInt z) => Ok z
  | PAtom (ABool b) => Ok (if b then 1 else 0)%Z
  | _ => Raise TypeError
  end.

Definition compile_color (c : call) (value : pyval) : result pyval :=
  if is_color c
  then s ← Color.parse_color (F := spec_float) no_match value; Ok (PStr s)
  else Ok value.

(** [get_properties_values_for_zoom] (lines 521-593) for the properties of
    the closed examples: literal values, colours, and stops that are lists
    of [[zoom, value]] on properties that are neither expressions nor
    interpolated.  Other uses end in [NotImplementedError] here. *)
Definition resolve (l : layer) (c : call) : result (list PropertyValue) :=
  if (is_color c || is_expression c) && can_interpolate c
  then Raise (RuntimeError "Colors and expressions cannot be interpolated")
  else
    let '(value, property_name) := _get_property_value l (property_path c) in
    let stops := if is_none value then PAtom ANone
                 else value_get value "stops" in
    let value := if is_none value
                 then default (PAtom ANone) (default_value c) else value in
    if truthy stops then
      match stops with
      | PList stops =>
          if is_expression c || can_interpolate c then Raise NotImplementedError
          else
            mapM (fun stop =>
                    match stop with
                    | PList (lower_zoom :: v :: _) =>
                        v ← compile_color c v;
                        zoom ← int_of lower_zoom;
                        Ok (mkProperty property_name (Some zoom) v false)
                    | _ => Raise NotImplementedError
                    end) stops
      | _ => Raise NotImplementedError
      end
    else if negb (is_none value) then
      if is_expression c then Raise NotImplementedError
      else
        v ← compile_color c value;
        Ok [mkProperty property_name None v false]
    else Ok [].

(** A fill layer with two stops of the opacity and a [minzoom]. *)
Definition water : layer :=
  list_to_map
    [("id", PStr "water"); ("type", PStr "fill");
     ("source-layer", PStr "water"); ("minzoom", PAtom (AInt 3));
     ("paint",
      PDict [("fill-color", PStr "#a0c8f0");
             ("fill-opacity",
              PDict [("stops", PList [PList [PAtom (AInt 5); PStr "0.5"];
                                      PList [PAtom (AInt 10); PStr "1"]])])])].

(** Zoom level, scale range and opacity of the bands of a result. *)
Definition opacity_by_zoom (r : result (list band))
  : option (list (option Z * option Z * option Z * option pyval)) :=
  match r with
  | Ok bands =>
      Some (map (fun b => (zoom_level b, min_scale_denom b, max_scale_denom b,
                           props b !! "fill-opacity")) bands)
  | Raise _ => None
  end.

End StylesExample.

(** * Part II: properties *)

Section Monad.
Context {A B : Type}.
Lemma bind_Ok (m : result A) (f : A -> result B) b :
  (m ≫= f) = Ok b -> exists a, m = Ok a /\ f a = Ok b.
Proof. destruct m as [a|e]; simpl; [eauto | discriminate]. Qed.
End Monad.

Ltac inv_bind H :=
  let a := fresh "a" in
  let Ha := fresh "Ha" in
  apply bind_Ok in H as (a & Ha & H).

Section Groupby.
Context {A K : Type} `{EqDecision K} (key : A -> K).







End Groupby.

Section RenderingPass.
Import Pass.

Lemma same_keys_refl s : same_keys s s.
Proof. by repeat split. Qed.

Lemma same_keys_set n s : same_keys (set_rendering_pass n s) s.
Proof. by repeat split. Qed.

Lemma same_target_keys nm rl z s1 s2 :
  same_keys s1 s2 -> same_target nm rl z s1 = same_target nm rl z s2.
Proof.
  intros (Hn & Hr & Hz). unfold same_target, get_name.
  by rewrite Hn, Hr, Hz.
Qed.

Lemma groupby_keys (l1 l2 : list style) :
  Forall2 same_keys l1 l2 ->
  (groupby name l1).*1 = (groupby name l2).*1.
Proof.
  induction 1 as [|x1 x2 l1 l2 (Hn & _) _ IH]; [done|].
  cbn [groupby]. rewrite Hn.
  destruct (groupby name l1) as [|[k1 g1] gs1],
           (groupby name l2) as [|[k2 g2] gs2]; try done.
  simpl in IH. injection IH as -> IH.
  destruct (decide (name x2 = k2)); simpl; by rewrite IH.
Qed.

Lemma filterM_keys (p : style -> result bool) l1 l2 r1 :
  (forall s1 s2, same_keys s1 s2 -> p s1 = p s2) ->
  Forall2 same_keys l1 l2 ->
  filterM p l1 = Ok r1 ->
  exists r2, filterM p l2 = Ok r2 /\ Forall2 same_keys r1 r2.
Proof.
  intros Hp H. revert r1.
  induction H as [|x1 x2 l1 l2 Hx _ IH]; intros r1 Hf.
  - injection Hf as <-. by exists [].
  - simpl in Hf |- *. rewrite <- (Hp _ _ Hx).
    inv_bind Hf. rewrite Ha. simpl. inv_bind Hf.
    destruct (IH _ Ha0) as (r2 & -> & Hr). simpl.
    injection Hf as <-. eexists; split; [done|].
    destruct a; [by constructor|done].
Qed.

Lemma pass_of_keys cur styles i st n :
  Forall2 same_keys cur styles ->
  pass_of cur i st = Ok n -> pass_of styles i st = Ok n.
Proof.
  intros Hk. unfold pass_of. intros H.
  inv_bind H. rewrite Ha. simpl. inv_bind H.
  eapply filterM_keys in Ha0 as (r2 & -> & Hr).
  - simpl. injection H as <-. f_equal.
    rewrite <- (length_fmap fst (groupby name a0)), <- (length_fmap fst (groupby name r2)).
    f_equal. symmetry. by apply groupby_keys.
  - intros. by apply same_target_keys.
  - by apply Forall2_take.
Qed.

Lemma loop_inv_init styles : loop_inv styles 0 styles.
Proof.
  split; [|done|lia].
  apply Forall2_same_length_lookup_2; [done|].
  intros i x y Hx Hy. rewrite Hx in Hy. injection Hy as <-. apply same_keys_refl.
Qed.

Lemma pass_step_inv styles k cur cur' :
  k < length styles ->
  loop_inv styles k cur -> pass_step cur k = Ok cur' ->
  loop_inv styles (S k) cur'.
Proof.
  intros Hk [Hkeys Htodo Hdone] Hstep.
  destruct (lookup_lt_is_Some_2 styles k Hk) as [st Hst].
  unfold pass_step in Hstep. rewrite (Htodo k st (le_n _) Hst) in Hstep.
  inv_bind Hstep. injection Hstep as <-.
  assert (Hlen : length cur = length styles) by (by eapply Forall2_length).
  split.
  - apply Forall2_same_length_lookup_2; [by rewrite length_insert|].
    intros i x y Hx Hy. destruct (decide (i = k)) as [->|Hne].
    + rewrite list_lookup_insert_eq in Hx by lia. injection Hx as <-.
      rewrite Hst in Hy. injection Hy as <-. apply same_keys_set.
    + rewrite list_lookup_insert_ne in Hx by done.
      by eapply Forall2_lookup_lr.
  - intros i st' Hi Hst'. rewrite list_lookup_insert_ne by lia.
    apply Htodo; [lia|done].
  - intros i st' Hi Hst'. destruct (decide (i = k)) as [->|Hne].
    + rewrite Hst in Hst'. injection Hst' as <-. exists a. split.
      * by eapply pass_of_keys.
      * by rewrite list_lookup_insert_eq by lia.
    + rewrite list_lookup_insert_ne by done. apply Hdone; [lia|done].
Qed.

Lemma for_each_pass_inv styles n : forall k cur out,
  k + n = length styles ->
  loop_inv styles k cur ->
  for_each pass_step (seq k n) cur = Ok out ->
  loop_inv styles (length styles) out.
Proof.
  induction n as [|n IH]; intros k cur out Hn Hinv Hrun.
  - injection Hrun as <-. by replace (length styles) with k by lia.
  - simpl in Hrun. inv_bind Hrun.
    apply (IH (S k) a); [lia| |done].
    eapply pass_step_inv; [lia|done|done].
Qed.

Lemma assign_rendering_passes_spec styles out :
  assign_rendering_passes styles = Ok out ->
  length out = length styles /\
  forall i st, styles !! i = Some st ->
    exists n, pass_of styles i st = Ok n /\
              out !! i = Some (set_rendering_pass n st).
Proof.
  intros H. eapply (for_each_pass_inv styles _ 0 styles) in H;
    [|done|apply loop_inv_init].
  destruct H as [Hkeys _ Hdone]. split; [by eapply Forall2_length|].
  intros i st Hst. apply Hdone; [|done]. by eapply lookup_lt_Some.
Qed.





(** The scenario of the specification: bands A (zoom 5), B (zoom 5) and
    C (zoom 6) with one rule get the passes 0, 1 and 2. *)
Example rendering_pass_scenario :
  assign_rendering_passes
    [band "A" (Some "R") (Some 5%Z); band "B" (Some "R") (Some 5%Z);
     band "C" (Some "R") (Some 6%Z)]
  = Ok [set_rendering_pass 0 (band "A" (Some "R") (Some 5%Z));
        set_rendering_pass 1 (band "B" (Some "R") (Some 5%Z));
        set_rendering_pass 2 (band "C" (Some "R") (Some 6%Z))].
Proof. reflexivity. Qed.


(** Outside the amended claim: a zoom level of [0] is falsy, so a band at
    zoom 0 gets pass 0 whatever precedes it. *)
Example rendering_pass_zoom_zero :
  assign_rendering_passes
    [band "A" None (Some 0%Z); band "B" None (Some 0%Z)]
  = Ok [set_rendering_pass 0 (band "A" None (Some 0%Z));
        set_rendering_pass 0 (band "B" None (Some 0%Z))].
Proof. reflexivity. Qed.

(** Outside the amended claim: [groupby] counts runs, so a name that comes
    back after another one is counted again. *)
Example rendering_pass_name_returns :
  assign_rendering_passes
    [band "A" None (Some 5%Z); band "B" None (Some 5%Z);
     band "A" None (Some 5%Z); band "D" None (Some 5%Z)]
  = Ok [set_rendering_pass 0 (band "A" None (Some 5%Z));
        set_rendering_pass 1 (band "B" None (Some 5%Z));
        set_rendering_pass 1 (band "A" None (Some 5%Z));
        set_rendering_pass 3 (band "D" None (Some 5%Z))].
Proof. reflexivity. Qed.

(** A band without zoom level before a band with one of the same rule
    makes the comparison of line 128 raise. *)
Example rendering_pass_none_then_zoom :
  assign_rendering_passes [band "A" None None; band "B" None (Some 5%Z)]
  = Raise TypeError.
Proof. reflexivity. Qed.

End RenderingPass.

Section Strings.

Lemma append_cons c (s1 s2 : string) :
  String c s1 +:+ s2 = String c (s1 +:+ s2).
Proof. reflexivity. Qed.

Lemma append_assoc (s1 s2 s3 : string) :
  (s1 +:+ s2) +:+ s3 = s1 +:+ s2 +:+ s3.
Proof.
  induction s1 as [|c s1 IH]; [done|]. by rewrite !append_cons, IH.
Qed.

Lemma prefix_app (p s : string) : String.prefix p (p +:+ s) = true.
Proof.
  induction p as [|c p IH]; [by destruct s|].
  rewrite append_cons. simpl.
  destruct (Ascii.ascii_dec c c); [done|congruence].
Qed.

Lemma contains_of_prefix (p t : string) :
  String.prefix p t = true -> contains p t = true.
Proof. intros H. destruct t; cbn [contains]; by rewrite H. Qed.

Lemma contains_prefix (p s : string) : contains p (p +:+ s) = true.
Proof. apply contains_of_prefix, prefix_app. Qed.

Lemma contains_app_r (p x s : string) :
  contains p s = true -> contains p (x +:+ s) = true.
Proof.
  intros H. induction x as [|c x IH]; [done|].
  rewrite append_cons. cbn [contains]. rewrite IH. apply orb_true_r.
Qed.

End Strings.

Section FilterFacts.
Import Filter.




(** C7 (amended).  For [[op, attr, v1, v2, ...]] with at least one value,
    [in] gives [("attr" is not null and "attr" in ('v1', 'v2', ...))], joined
    by [and], and [!in] gives
    [("attr" is null or "attr" not in ('v1', 'v2', ...))], joined by [or]. *)
Theorem membership_expr_shape (attr v : atom) (vs : list atom) :
  let what := dquote +:+ py_str attr +:+ dquote in
  _get_membership_expr (AStr "in" :: attr :: v :: vs) =
    Ok ("(" +:+ what +:+ " is not null and " +:+ what +:+ " in ("
            +:+ quoted_values (v :: vs) +:+ "))") /\
  _get_membership_expr (AStr "!in" :: attr :: v :: vs) =
    Ok ("(" +:+ what +:+ " is null or " +:+ what +:+ " not in ("
            +:+ quoted_values (v :: vs) +:+ "))").
Proof.
  intros what. unfold _get_membership_expr, table_mem.
  split.
  - change (getitem (AStr "in" :: attr :: v :: vs) 0) with (Ok (AStr "in")).
    change (getitem (AStr "in" :: attr :: v :: vs) 1) with (Ok attr).
    cbn [mbind result_bind].
    change (table_get _membership_operators (AStr "in")) with (Some "in").
    rewrite (bool_decide_eq_true_2 (is_Some _)) by eauto.
    rewrite (bool_decide_eq_true_2 (3 <= _)) by (simpl; lia).
    cbn [mbind result_bind from_option py_assert atom_startswith drop].
    change (startswith "in" "!") with false. cbv beta iota.
    fold what. unfold quoted_values. f_equal.
    by rewrite !append_assoc.
  - change (getitem (AStr "!in" :: attr :: v :: vs) 0) with (Ok (AStr "!in")).
    change (getitem (AStr "!in" :: attr :: v :: vs) 1) with (Ok attr).
    cbn [mbind result_bind].
    change (table_get _membership_operators (AStr "!in")) with (Some "not in").
    rewrite (bool_decide_eq_true_2 (is_Some _)) by eauto.
    rewrite (bool_decide_eq_true_2 (3 <= _)) by (simpl; lia).
    cbn [mbind result_bind from_option py_assert atom_startswith drop].
    change (startswith "!in" "!") with true. cbv beta iota.
    fold what. unfold quoted_values. f_equal.
    by rewrite !append_assoc.
Qed.


Example comparision_expr_not_equal :
  _get_comparision_expr [AStr "!="; AStr "class"; AStr "park"] =
  Ok (Some (dquote +:+ "class" +:+ dquote +:+ " is null or "
              +:+ dquote +:+ "class" +:+ dquote +:+ " != 'park'")).
Proof. reflexivity. Qed.

Lemma spec_membership_shape_or out :
  spec_membership_shape out -> contains "null or " out = true.
Proof.
  intros (a & n1 & n2 & vs & _ & _ & ->).
  do 4 apply contains_app_r. apply contains_prefix.
Qed.

(** C7, counterexample.  [["in", "class", "park"]] compiles to
    [("class" is not null and "class" in ('park'))], which has no [or]. *)
Lemma membership_in_joins_with_and : ~ spec_membership_claim.
Proof.
  intros H.
  destruct (H "in" (AStr "class") (AStr "park") [] (or_introl eq_refl))
    as (out & Hout & Hshape).
  apply spec_membership_shape_or in Hshape.
  vm_compute in Hout. injection Hout as <-.
  vm_compute in Hshape. discriminate Hshape.
Qed.

Example membership_in_park :
  _get_membership_expr [AStr "in"; AStr "class"; AStr "park"; AStr "wood"] =
  Ok ("(" +:+ dquote +:+ "class" +:+ dquote +:+ " is not null and "
          +:+ dquote +:+ "class" +:+ dquote +:+ " in ('park', 'wood'))").
Proof. reflexivity. Qed.

End FilterFacts.

Section HexFacts.
Context {F : Type} `{PyFloat F}.
Variable gme : list pyval -> result string.

Lemma hex_not_space c : is_Some (hex_val c) -> is_space c = false.
Proof.
  destruct c as [[] [] [] [] [] [] [] []]; vm_compute; intros [v Hv]; congruence.
Qed.

Lemma hex_not_hash c : is_Some (hex_val c) -> c ≠ "#"%char.
Proof. intros [v Hv] ->. vm_compute in Hv. discriminate. Qed.

Lemma all_hex_cons c s :
  all_hex (String c s) = true <-> is_Some (hex_val c) /\ all_hex s = true.
Proof.
  simpl. rewrite andb_true_iff, bool_decide_eq_true. done.
Qed.

Lemma remove_hash_hex h : all_hex h = true -> remove_go "#" 0 h = h.
Proof.
  induction h as [|c h IH]; [done|]. intros [Hc Hh]%all_hex_cons.
  cbn [remove_go String.prefix].
  destruct (Ascii.ascii_dec "#" c) as [<-|_].
  - by apply hex_not_hash in Hc.
  - by rewrite IH.
Qed.

Lemma fromhex_hex n : forall s,
  String.length s = (2 * n)%nat -> all_hex s = true ->
  fromhex s = Ok (bytes_of_hex s).
Proof.
  induction n as [|n IH]; intros s Hlen Hs.
  - by destruct s.
  - destruct s as [|c [|d s]]; try (simpl in Hlen; lia).
    apply all_hex_cons in Hs as [Hc [Hd Hs]%all_hex_cons].
    cbn [fromhex bytes_of_hex]. rewrite (hex_not_space c Hc).
    unfold hv. destruct Hc as [vc ->], Hd as [vd ->].
    rewrite (IH s); [done| |done]. simpl in Hlen. lia.
Qed.

Lemma fromhex_odd n : forall s,
  String.length s = S (2 * n) -> all_hex s = true ->
  fromhex s = Raise ValueError.
Proof.
  induction n as [|n IH]; intros s Hlen Hs.
  - destruct s as [|c [|d s]]; try (simpl in Hlen; lia).
    apply all_hex_cons in Hs as [Hc _]. simpl.
    by rewrite (hex_not_space c Hc).
  - destruct s as [|c [|d s]]; try (simpl in Hlen; lia).
    apply all_hex_cons in Hs as [Hc [Hd Hs]%all_hex_cons].
    cbn [fromhex]. rewrite (hex_not_space c Hc).
    destruct Hc as [vc ->], Hd as [vd ->].
    rewrite (IH s); [done| |done]. simpl in Hlen. lia.
Qed.

Lemma all_hex_double h : all_hex h = true -> all_hex (double_chars h) = true.
Proof.
  induction h as [|c h IH]; [done|]. intros [Hc Hh]%all_hex_cons.
  cbn [double_chars]. rewrite !all_hex_cons. auto.
Qed.

Lemma length_double h : String.length (double_chars h) = (2 * String.length h)%nat.
Proof. induction h as [|c h IH]; simpl; [done|]. rewrite IH. lia. Qed.

Lemma bytes_of_double h : bytes_of_hex (double_chars h) = doubled_bytes h.
Proof. induction h as [|c h IH]; simpl; [done|]. by rewrite IH. Qed.

Lemma prefix_empty h : String.prefix EmptyString h = true.
Proof. by destruct h. Qed.

Lemma startswith_hash h : startswith (String "#" h) "#" = true.
Proof.
  unfold startswith. cbn [String.prefix].
  destruct (Ascii.ascii_dec "#" "#"); [apply prefix_empty|done].
Qed.

Lemma remove_hash_cons h : remove "#" (String "#" h) = remove_go "#" 0 h.
Proof.
  unfold remove. cbn [remove_go]. fold (startswith (String "#" h) "#").
  by rewrite startswith_hash.
Qed.

(** C5 (amended).  For ["#" + h] with [h] made of hexadecimal digits:
    six digits give ["#" + h]; three digits give the decimal CSV of the
    three bytes of the doubled digits, without alpha; any other even number
    of digits gives the CSV of its bytes, one per pair of digits, without
    alpha; any other odd number raises [ValueError]. *)
Theorem parse_color_hex (h : string) :
  all_hex h = true ->
  Color.parse_color gme (PStr ("#" +:+ h)) = hex_result h.
Proof.
  intros Hh. unfold Color.parse_color, PStr, hex_result.
  change ("#" +:+ h) with (String "#" h).
  rewrite startswith_hash. unfold Color.parse_hex.
  rewrite remove_hash_cons, (remove_hash_hex h Hh).
  case_bool_decide as H3.
  - rewrite bool_decide_eq_false_2 by lia.
    rewrite (fromhex_hex (String.length h)), bytes_of_double;
      [done|apply length_double|by apply all_hex_double].
  - case_bool_decide as H6; [done|].
    destruct (Nat.even (String.length h)) eqn:Hev.
    + apply Nat.even_spec in Hev as [n Hn].
      by rewrite (fromhex_hex n h Hn Hh).
    + assert (Hodd : Nat.odd (String.length h) = true)
        by (by rewrite <- Nat.negb_even, Hev).
      apply Nat.odd_spec in Hodd as [n Hn].
      rewrite (fromhex_odd n h); [done| |done]. lia.
Qed.

End HexFacts.


Lemma parse_color_hex_witness :
  all_hex "abc" = true /\
  Color.parse_color (F := spec_float) no_match (PStr "#abc") = Ok "170,187,204".
Proof.
  split; [reflexivity|].
  exact (parse_color_hex (F := spec_float) no_match "abc" eq_refl).
Defined.

(** C5, counterexample.  ["#abc"] gives ["170,187,204"], three channels:
    no alpha of 255 is added. *)
Lemma parse_color_hex3_no_alpha : ~ spec_hex3_claim.
Proof.
  intros Hc.
  specialize (Hc spec_float Binary64.binary64 no_match "a" "b" "c" eq_refl)%char.
  vm_compute in Hc. discriminate Hc.
Qed.

Example parse_color_hex6 :
  Color.parse_color (F := spec_float) no_match (PStr "#A0b1C2") = Ok "#A0b1C2".
Proof. reflexivity. Qed.

Example parse_color_hex8 :
  Color.parse_color (F := spec_float) no_match (PStr "#aabbccdd")
  = Ok "170,187,204,221".
Proof. reflexivity. Qed.

Section ListColor.
Context {F : Type} `{PyFloat F}.
Variable gme : list pyval -> result string.

Lemma pyval_eq_str_true v s : pyval_eq_str v s = true <-> v = PStr s.
Proof.
  destruct v as [[| | |s']| |]; simpl; try (split; [discriminate|]); try discriminate.
  - rewrite bool_decide_eq_true. unfold PStr. split; congruence.
Qed.

(** C9.  A list colour with a first element other than ["match"] gives the
    sentinel ["255,0,0,0"] and raises nothing. *)
Theorem parse_color_list_sentinel (first : pyval) (rest : list pyval) :
  first ≠ PStr "match" ->
  Color.parse_color gme (PList (first :: rest)) = Ok "255,0,0,0".
Proof.
  intros Hne. simpl.
  destruct (pyval_eq_str first "match") eqn:E; [|done].
  by apply pyval_eq_str_true in E.
Qed.
End ListColor.

Lemma parse_color_list_sentinel_witness :
  PStr "interpolate" ≠ PStr "match" /\
  Color.parse_color (F := spec_float) no_match
    (PList [PStr "interpolate"; PList [PStr "linear"]; PList [PStr "zoom"]])
  = Ok "255,0,0,0".
Proof.
  assert (Hne : PStr "interpolate" ≠ PStr "match") by discriminate.
  split; [exact Hne|].
  exact (parse_color_list_sentinel (F := spec_float) no_match _ _ Hne).
Defined.

Example parse_color_empty_list :
  Color.parse_color (F := spec_float) no_match (PList []) = Raise IndexError.
Proof. reflexivity. Qed.


Section ColorString.
Context {F : Type} `{PyFloat F}.

Lemma getitem_Ok {A} (l : list A) i x : getitem l i = Ok x -> l !! i = Some x.
Proof. unfold getitem. destruct (l !! i); [congruence|discriminate]. Qed.

Lemma mapM_Ok {A B} (f : A -> result B) l cs :
  mapM f l = Ok cs -> Forall2 (fun x y => f x = Ok y) l cs.
Proof.
  revert cs. induction l as [|x l IH]; intros cs Hm; simpl in Hm.
  - injection Hm as <-. constructor.
  - inv_bind Hm. inv_bind Hm. injection Hm as <-. constructor; auto.
Qed.

Lemma default_alpha (alpha : F) a :
  Ok (float_of_Z 1) = Ok alpha ->
  py_round (fmul (float_of_Z 255) alpha) = Ok a -> a = 255%Z.
Proof. intros [= <-]. rewrite round_opaque. congruence. Qed.

(** C8 (amended).  When [_get_color_string] returns, its result is
    ["r,g,b,a"] of four integers computed as [channels_as_designed] says;
    the channels are not clamped to 0-255 and [rgb] components are
    truncated by [int], not rounded. *)
Theorem color_string_as_designed (color out : string) :
  Color._get_color_string color = Ok out ->
  channels_as_designed color out.
Proof.
  unfold Color._get_color_string, Color._get_color_channels.
  intros Hrun. inv_bind Hrun. injection Hrun as <-. rename a into cs.
  inv_bind Ha. rename a into colors, Ha0 into Hcolors.
  inv_bind Ha. rename a into alpha, Ha0 into Halpha.
  unfold channels_as_designed. cbv zeta.
  destruct (Color.is_hsl (lower color)) eqn:Hhsl.
  - inv_bind Ha. rename a into c0, Ha0 into H0.
    inv_bind Ha. rename a into c1, Ha0 into H1.
    inv_bind Ha. rename a into c2, Ha0 into H2.
    apply getitem_Ok in H0, H1, H2.
    exists colors, c0, c1, c2.
    destruct (hls_to_rgb _ _ _) as [[x y] z] eqn:Hrgb.
    apply mapM_Ok in Ha.
    apply Forall2_cons_inv_l in Ha as (r & cs1 & Hr & Ha & ->).
    apply Forall2_cons_inv_l in Ha as (g & cs2 & Hg & Ha & ->).
    apply Forall2_cons_inv_l in Ha as (b & cs3 & Hb & Ha & ->).
    apply Forall2_cons_inv_l in Ha as (a & cs4 & Hal & Ha & ->).
    apply Forall2_nil_inv_l in Ha as ->.
    exists r, g, b, a. repeat (split; [done|]).
    split; [|done].
    destruct (Color.has_alpha (lower color)).
    + apply getitem_Ok in Halpha. by exists alpha.
    + by eapply default_alpha.
  - inv_bind Ha. rename a into c0, Ha0 into H0.
    inv_bind Ha. rename a into c1, Ha0 into H1.
    inv_bind Ha. rename a into c2, Ha0 into H2.
    inv_bind Ha. rename Ha0 into Hal.
    inv_bind Ha. injection Ha as <-. rename Ha0 into Ha.
    apply getitem_Ok in H0, H1, H2.
    exists colors, c0, c1, c2.
    apply mapM_Ok in Ha.
    apply Forall2_cons_inv_l in Ha as (r & cs1 & Hr & Ha & ->).
    apply Forall2_cons_inv_l in Ha as (g & cs2 & Hg & Ha & ->).
    apply Forall2_cons_inv_l in Ha as (b & cs3 & Hb & Ha & ->).
    apply Forall2_nil_inv_l in Ha as ->.
    exists r, g, b, a. repeat (split; [done|]).
    split; [|done].
    destruct (Color.has_alpha (lower color)).
    + apply getitem_Ok in Halpha. by exists alpha.
    + by eapply default_alpha.
Qed.

End ColorString.

Lemma color_string_as_designed_witness :
  Color._get_color_string (F := spec_float) "rgba(10,20,30,0.5)"
    = Ok "10,20,30,128" /\
  channels_as_designed (F := spec_float) "rgba(10,20,30,0.5)" "10,20,30,128".
Proof.
  assert (Hrun : Color._get_color_string (F := spec_float) "rgba(10,20,30,0.5)"
                 = Ok "10,20,30,128") by (vm_compute; reflexivity).
  split; [exact Hrun|].
  exact (color_string_as_designed (F := spec_float) _ _ Hrun).
Defined.

(** C8, counterexample.  [rgb(300,0,0)] gives the channels 300, 0, 0 and
    255: the first one is outside 0-255. *)
Lemma color_channels_not_clamped : ~ spec_channels_claim.
Proof.
  intros Hc.
  assert (Hrun : Color._get_color_channels (F := spec_float) "rgb(300,0,0)"
                 = Ok [300; 0; 0; 255]%Z) by (vm_compute; reflexivity).
  apply Hc in Hrun. apply Forall_cons in Hrun as [[_ Hle] _]. lia.
Qed.

Example color_string_rgb_300 :
  Color._get_color_string (F := spec_float) "rgb(300,0,0)" = Ok "300,0,0,255".
Proof. vm_compute. reflexivity. Qed.

Example color_string_rgb_truncates :
  Color._get_color_string (F := spec_float) "rgb(10.7,20,30)" = Ok "10,20,30,255".
Proof. vm_compute. reflexivity. Qed.

Example color_string_alpha_by_prefix :
  Color._get_color_string (F := spec_float) "rgb(1,2,3,0.5)" = Ok "1,2,3,255" /\
  Color._get_color_string (F := spec_float) "rgba(1,2,3)" = Raise IndexError.
Proof. split; vm_compute; reflexivity. Qed.

Example color_string_hsl :
  Color._get_color_string (F := spec_float) "hsl(210,33%,47%)" = Ok "80,120,159,255".
Proof. vm_compute. reflexivity. Qed.

Section RefFacts.
Import Refs.

Lemma copy_props_lookup (target lyr : layer) (k : string) :
  copy_props target lyr !! k =
  if decide (k = "paint") then lyr !! k
  else match target !! k with Some v => Some v | None => lyr !! k end.
Proof.
  unfold copy_props.
  apply (map_fold_weak_ind
    (fun (r : layer) (m : layer) =>
       r !! k = if decide (k = "paint") then lyr !! k
                else match m !! k with Some v => Some v | None => lyr !! k end)).
  - rewrite lookup_empty. by destruct (decide (k = "paint")).
  - intros i x m r Hi IH.
    destruct (decide (i ≠ "paint")) as [Hne|Heq].
    + destruct (decide (k = i)) as [->|Hki].
      * rewrite !lookup_insert_eq. by rewrite decide_False.
      * rewrite !lookup_insert_ne by done. exact IH.
    + apply dec_stable in Heq. subst i.
      destruct (decide (k = "paint")) as [->|Hk]; [done|].
      rewrite lookup_insert_ne by done. exact IH.
Qed.

Lemma copy_props_paint (target lyr : layer) :
  copy_props target lyr !! "paint" = lyr !! "paint".
Proof. by rewrite copy_props_lookup. Qed.

Lemma copy_props_self (lyr : layer) : copy_props lyr lyr = lyr.
Proof.
  apply map_eq. intros k. rewrite copy_props_lookup.
  destruct (decide (k = "paint")); [done|]. by destruct (lyr !! k).
Qed.

Lemma frame_refl layers : frame layers layers.
Proof. split; [done|]. intros i l Hl. exists l. auto. Qed.

Lemma frame_trans l1 l2 l3 : frame l1 l2 -> frame l2 l3 -> frame l1 l3.
Proof.
  intros [Hlen1 H1] [Hlen2 H2]. split; [congruence|].
  intros i l Hl. destruct (H1 i l Hl) as (l' & Hl' & Hp & Hr).
  destruct (H2 i l' Hl') as (l'' & Hl'' & Hp' & Hr').
  exists l''. split; [done|]. split; [congruence|].
  intros Hf. specialize (Hr Hf). subst l'. by apply Hr'.
Qed.

Lemma frame_copy layers idx lyr target :
  layers !! idx = Some lyr ->
  truthy (_get_value_safe lyr "ref") = true ->
  frame layers (<[idx := copy_props target lyr]> layers).
Proof.
  intros Hidx Href. split; [apply length_insert|].
  intros i l Hl. destruct (decide (i = idx)) as [->|Hne].
  - rewrite list_lookup_insert_eq by (by eapply lookup_lt_Some).
    eexists. split; [done|]. rewrite Hidx in Hl. injection Hl as <-.
    split; [apply copy_props_paint|]. congruence.
  - rewrite list_lookup_insert_ne by done. exists l. auto.
Qed.

Lemma apply_source_layer_frame depth : forall idx layers out,
  _apply_source_layer depth idx layers = Ok out -> frame layers out.
Proof.
  induction depth as [|depth IH]; intros idx layers out Hrun; [discriminate|].
  cbn [_apply_source_layer] in Hrun.
  destruct (layers !! idx) as [lyr|] eqn:Hidx;
    [|injection Hrun as <-; apply frame_refl].
  destruct (truthy (_get_value_safe lyr "ref")) eqn:Href;
    [|injection Hrun as <-; apply frame_refl].
  destruct (first_match _ layers) as [t|];
    [|injection Hrun as <-; apply frame_refl].
  destruct (layers !! t) as [target|];
    [|injection Hrun as <-; apply frame_refl].
  eapply frame_trans; [|by eapply IH]. by apply frame_copy.
Qed.

Lemma for_each_rel {A S} (R : relation S) `{!PreOrder R}
    (body : S -> A -> result S) xs : forall s s',
  (forall s x s', body s x = Ok s' -> R s s') ->
  for_each body xs s = Ok s' -> R s s'.
Proof.
  induction xs as [|x xs IH]; intros s s' Hbody Hrun; simpl in Hrun.
  - by injection Hrun as <-.
  - destruct (body s x) as [s1|] eqn:Hs1; [simpl in Hrun|discriminate].
    transitivity s1; eauto.
Qed.

#[local] Instance frame_preorder : PreOrder frame.
Proof. split; [exact frame_refl|exact frame_trans]. Qed.

Lemma inherited_refl layers : inherited layers layers.
Proof. intros i l Hl. exists l. split; [done|]. split; [done|]. eauto. Qed.

Lemma inherited_trans l1 l2 l3 :
  inherited l1 l2 -> inherited l2 l3 -> inherited l1 l3.
Proof.
  intros H1 H2 i l'' Hl''.
  destruct (H2 i l'' Hl'') as (l' & Hl' & Hk' & Hv').
  destruct (H1 i l' Hl') as (l & Hl & Hk & Hv).
  exists l. split; [done|]. split; [auto|].
  intros k v Hkv. destruct (Hv' k v Hkv) as (j & lj & Hj & Hjk).
  destruct (H1 j lj Hj) as (_ & _ & _ & Hvj). eauto.
Qed.

Lemma inherited_copy layers idx t lyr target :
  layers !! idx = Some lyr ->
  layers !! t = Some target ->
  inherited layers (<[idx := copy_props target lyr]> layers).
Proof.
  intros Hidx Ht i l' Hl'. destruct (decide (i = idx)) as [->|Hne].
  - rewrite list_lookup_insert_eq in Hl' by (by eapply lookup_lt_Some).
    injection Hl' as <-. exists lyr. split; [done|]. split.
    + intros k Hk. rewrite copy_props_lookup.
      destruct (decide (k = "paint")); [done|]. by destruct (target !! k).
    + intros k v. rewrite copy_props_lookup.
      destruct (decide (k = "paint")); [eauto|].
      destruct (target !! k) as [w|] eqn:Hw; [|eauto].
      intros [= <-]. eauto.
  - rewrite list_lookup_insert_ne in Hl' by done. by apply inherited_refl.
Qed.

Lemma apply_source_layer_inherited depth : forall idx layers out,
  _apply_source_layer depth idx layers = Ok out -> inherited layers out.
Proof.
  induction depth as [|depth IH]; intros idx layers out Hrun; [discriminate|].
  cbn [_apply_source_layer] in Hrun.
  destruct (layers !! idx) as [lyr|] eqn:Hidx;
    [|injection Hrun as <-; apply inherited_refl].
  destruct (truthy (_get_value_safe lyr "ref")) eqn:Href;
    [|injection Hrun as <-; apply inherited_refl].
  destruct (first_match _ layers) as [t|];
    [|injection Hrun as <-; apply inherited_refl].
  destruct (layers !! t) as [target|] eqn:Ht;
    [|injection Hrun as <-; apply inherited_refl].
  eapply inherited_trans; [|by eapply IH]. by eapply inherited_copy.
Qed.

#[local] Instance inherited_preorder : PreOrder inherited.
Proof. split; [exact inherited_refl|exact inherited_trans]. Qed.

Lemma process_refs_inherited depth layers out :
  process_refs depth layers = Ok out -> inherited layers out.
Proof.
  unfold process_refs. apply (for_each_rel inherited).
  intros s x s' Hstep. unfold process_step in Hstep.
  destruct (s !! x) as [l|]; [|injection Hstep as <-; apply inherited_refl].
  case_bool_decide; [|injection Hstep as <-; apply inherited_refl].
  by eapply apply_source_layer_inherited.
Qed.

(** C4 (amended).  When [process] returns, the document has as many
    layers as before, no layer's [paint] has changed, every layer whose
    [ref] is absent or falsy is unchanged, no layer has lost a property, and
    every property of a layer is the value of the same property in a layer
    of the input document. *)
Theorem process_refs_frame depth layers out :
  process_refs depth layers = Ok out ->
  frame layers out /\ inherited layers out.
Proof.
  intros Hrun. split; [|by eapply process_refs_inherited].
  revert Hrun. unfold process_refs. apply (for_each_rel frame).
  intros s x s' Hstep. unfold process_step in Hstep.
  destruct (s !! x) as [l|]; [|injection Hstep as <-; apply frame_refl].
  case_bool_decide; [|injection Hstep as <-; apply frame_refl].
  by eapply apply_source_layer_frame.
Qed.

(** One step is as documented: a layer that refers to a root gets every
    property of the root except [paint]. *)
Lemma apply_source_layer_root depth idx t layers lyr target :
  layers !! idx = Some lyr ->
  truthy (_get_value_safe lyr "ref") = true ->
  first_match (_get_value_safe lyr "ref") layers = Some t ->
  layers !! t = Some target ->
  t ≠ idx ->
  truthy (_get_value_safe target "ref") = false ->
  _apply_source_layer (S (S depth)) idx layers
  = Ok (<[idx := copy_props target lyr]> layers).
Proof.
  intros Hidx Href Hfirst Ht Hne Hroot.
  cbn [_apply_source_layer]. rewrite Hidx, Href, Hfirst, Ht.
  rewrite list_lookup_insert_ne by done. by rewrite Ht, Hroot.
Qed.

(** A layer whose [ref] finds the layer itself never stops recursing. *)
Lemma apply_source_layer_self depth : forall idx layers lyr,
  layers !! idx = Some lyr ->
  truthy (_get_value_safe lyr "ref") = true ->
  first_match (_get_value_safe lyr "ref") layers = Some idx ->
  _apply_source_layer depth idx layers = Raise RecursionError.
Proof.
  induction depth as [|depth IH]; intros idx layers lyr Hidx Href Hfirst; [done|].
  cbn [_apply_source_layer]. rewrite Hidx, Href, Hfirst, Hidx.
  rewrite copy_props_self, list_insert_id by done. by eapply IH.
Qed.

End RefFacts.

Section RefExamples.
Import Refs.

Lemma process_refs_frame_witness :
  exists out,
    process_refs 100 [layer_a; layer_b] = Ok out /\
    frame [layer_a; layer_b] out /\ inherited [layer_a; layer_b] out.
Proof.
  eexists. split; [vm_compute; reflexivity|].
  apply (process_refs_frame 100). vm_compute. reflexivity.
Defined.

(** C4, counterexample.  In the document [[a, b]] where [b] refers to [a],
    the layer [b] has the id of [a] after [process]. *)
Lemma process_refs_writes_layer : ~ spec_read_only_claim.
Proof.
  intros Hc.
  destruct (process_refs 100 [layer_a; layer_b]) as [out|e] eqn:Hrun;
    [|vm_compute in Hrun; discriminate Hrun].
  pose proof (Hc _ _ _ Hrun) as Heq. subst out.
  assert (Hid : (out ← process_refs 100 [layer_a; layer_b];
                 Ok (out !! 1 ≫= fun l => l !! "id"))
                = Ok (Some (PStr "a"))) by (vm_compute; reflexivity).
  rewrite Hrun in Hid. vm_compute in Hid. discriminate Hid.
Qed.

(** C3, the failing input.  For the chain [c -> b -> a] the call on [c]
    copies the properties of [b] into [c] and only then resolves [b]: the
    [source-layer] of the root [a] reaches [b] and never [c]. *)
Lemma ref_chain_head_misses_root (d : nat) :
  exists out,
    _apply_source_layer (3 + d) 0 [layer_c; layer_b; layer_a] = Ok out /\
    (out !! 0 ≫= fun l => l !! "id") = Some (PStr "b") /\
    (out !! 0 ≫= fun l => l !! "source-layer") = None /\
    (out !! 1 ≫= fun l => l !! "source-layer") = Some (PStr "roads") /\
    layer_a !! "source-layer" = Some (PStr "roads").
Proof.
  eexists. split; [vm_compute; reflexivity|]. repeat split; vm_compute; reflexivity.
Qed.

(** In declaration order [b] takes the id of [a], so the [ref] of [c] finds
    no layer and [c] stays as it is. *)
Example ref_chain_declaration_order :
  exists out,
    process_refs 100 [layer_a; layer_b; layer_c] = Ok out /\
    (out !! 1 ≫= fun l => l !! "id") = Some (PStr "a") /\
    out !! 2 = Some layer_c.
Proof.
  eexists. split; [vm_compute; reflexivity|]. split; vm_compute; reflexivity.
Qed.

Example ref_chain_head_between :
  exists out,
    process_refs 100 [layer_a; layer_c; layer_b] = Ok out /\
    (out !! 1 ≫= fun l => l !! "id") = Some (PStr "b") /\
    (out !! 1 ≫= fun l => l !! "source-layer") = None.
Proof.
  eexists. split; [vm_compute; reflexivity|]. split; vm_compute; reflexivity.
Qed.

(** With [b] between [c] and [a], [b] has the id [a] when its turn comes,
    finds itself and recurses until the interpreter gives up. *)
Example ref_chain_recursion :
  process_refs 100 [layer_c; layer_b; layer_a] = Raise RecursionError.
Proof. vm_compute. reflexivity. Qed.

End RefExamples.

Section ScaleTable.
Import Styles Bands.

Lemma table_rows z b :
  upper_bound_map_scales_by_zoom_level !! z = Some b -> (z, b) ∈ scale_rows.
Proof. intros H. by apply elem_of_list_to_map_2 in H. Qed.

Ltac rows H :=
  unfold scale_rows in H;
  repeat (apply elem_of_cons in H as [[= -> ->]|H]);
  [..|by apply elem_of_nil in H].

Lemma table_domain z b :
  upper_bound_map_scales_by_zoom_level !! z = Some b -> (0 <= z <= 24)%Z.
Proof. intros H%table_rows. rows H; lia. Qed.

Lemma table_positive z b :
  upper_bound_map_scales_by_zoom_level !! z = Some b -> z ≠ 24%Z -> (1 <= b)%Z.
Proof. intros H%table_rows Hz. rows H; lia. Qed.

Lemma table_last b :
  upper_bound_map_scales_by_zoom_level !! 24%Z = Some b -> b = 0%Z.
Proof. intros H. vm_compute in H. by injection H as <-. Qed.

Lemma table_monotone z z' b b' :
  upper_bound_map_scales_by_zoom_level !! z = Some b ->
  upper_bound_map_scales_by_zoom_level !! z' = Some b' ->
  (z <= z')%Z -> (b' <= b)%Z.
Proof.
  intros H%table_rows H'%table_rows Hle.
  rows H; rows H'; lia.
Qed.
End ScaleTable.

Section StyleFacts.
Import Styles Bands.
#[local] Opaque upper_bound_map_scales_by_zoom_level.

Lemma sorted_zooms_strict (m : gmap Z (list PropertyValue)) :
  StronglySorted Z.lt (sorted_zooms m).
Proof.
  unfold sorted_zooms.
  assert (Hnd : NoDup (merge_sort Z.le (elements (dom m)))).
  { rewrite merge_sort_Permutation. apply NoDup_elements. }
  assert (Hs : StronglySorted Z.le (merge_sort Z.le (elements (dom m)))).
  { apply StronglySorted_merge_sort; apply _. }
  induction Hs as [|x l Hl IH Hx]; [constructor|].
  apply NoDup_cons in Hnd as [Hnotin Hnd].
  constructor; [by apply IH|].
  apply Forall_forall. intros y Hy.
  rewrite Forall_forall in Hx. specialize (Hx y Hy).
  assert (x ≠ y) by (intros ->; done). lia.
Qed.

Lemma zoom_level_foldl_set_prop (vs : list PropertyValue) : forall c,
  zoom_level (foldl (fun c v => set_prop (pv_name v) (pv_value v) c) c vs)
  = zoom_level c.
Proof. induction vs as [|v vs IH]; intros c; simpl; [done|]. by rewrite IH. Qed.

Lemma zoom_level_forward m zs : forall clone,
  zoom_level <$> forward m clone zs = Some <$> zs.
Proof.
  induction zs as [|z zs IH]; intros clone; simpl; [done|].
  by rewrite zoom_level_foldl_set_prop, IH.
Qed.

Lemma zoom_level_backfill_from rest : forall s,
  zoom_level <$> backfill_from s rest = zoom_level <$> rest.
Proof. induction rest as [|n rest IH]; intros s; simpl; [done|]. by rewrite IH. Qed.

Lemma zoom_level_backfill l : zoom_level <$> backfill l = zoom_level <$> l.
Proof. destruct l as [|s rest]; simpl; [done|]. by rewrite zoom_level_backfill_from. Qed.

Lemma zoom_level_resulting m base zs :
  zoom_level <$> reverse (backfill (reverse (forward m base zs))) = Some <$> zs.
Proof.
  by rewrite fmap_reverse, zoom_level_backfill, <- fmap_reverse,
     reverse_involutive, zoom_level_forward.
Qed.

Lemma strict_adjacent (zs : list Z) : forall i z z',
  StronglySorted Z.lt zs -> zs !! i = Some z -> zs !! S i = Some z' ->
  (z < z')%Z.
Proof.
  induction zs as [|x zs IH]; intros i z z' Hs Hz Hz'; [done|].
  apply StronglySorted_inv in Hs as [Hs Hx].
  destruct i as [|i]; simpl in Hz, Hz'.
  - injection Hz as <-. rewrite Forall_forall in Hx. apply Hx.
    by eapply list_elem_of_lookup_2.
  - by eapply IH.
Qed.

Lemma ascending_of_zooms (l : list band) zs :
  zoom_level <$> l = Some <$> zs -> StronglySorted Z.lt zs -> ascending l.
Proof.
  intros Hz Hs i b b' Hb Hb'.
  assert (Hi : (zoom_level <$> l) !! i = Some (zoom_level b))
    by (by rewrite list_lookup_fmap, Hb).
  assert (Hi' : (zoom_level <$> l) !! S i = Some (zoom_level b'))
    by (by rewrite list_lookup_fmap, Hb').
  rewrite Hz, list_lookup_fmap in Hi, Hi'.
  destruct (zs !! i) as [z|] eqn:Ez; [|discriminate].
  destruct (zs !! S i) as [z'|] eqn:Ez'; [|discriminate].
  injection Hi as <-. injection Hi' as <-.
  exists z, z'. repeat split; [done..|].
  by eapply strict_adjacent.
Qed.
Lemma sort_by_ascending {A} (key : A -> Z) (l : list A) :
  (forall i a b, l !! i = Some a -> l !! S i = Some b -> (key a <= key b)%Z) ->
  sort_by key l = l.
Proof.
  induction l as [|x l IH]; intros Hasc; [done|].
  cbn [sort_by]. rewrite IH.
  - destruct l as [|y l]; [done|]. cbn [insert_by].
    rewrite (proj2 (Z.leb_le _ _)); [done|]. by apply (Hasc 0 x y).
  - intros i a b Ha Hb. by apply (Hasc (S i)).
Qed.

Lemma sorted_by_zoom_ascending (l l' : list band) :
  ascending l -> sorted_by_zoom l = Ok l' -> l' = l.
Proof.
  intros Hasc Hs. destruct l as [|x [|y l]]; try (by injection Hs as <-).
  unfold sorted_by_zoom in Hs.
  destruct (mapM _ _) as [ks|]; [cbn [mbind result_bind] in Hs|discriminate].
  injection Hs as <-.
  apply (sort_by_ascending (fun s => default 0%Z (zoom_level s)) (x :: y :: l)).
  intros i a b Ha Hb. destruct (Hasc i a b Ha Hb) as (z & z' & -> & -> & Hlt).
  simpl. lia.
Qed.

Lemma scale_of_zoom_Ok zoom bound :
  scale_of_zoom zoom = Ok bound ->
  exists z, zoom = Some z /\
            upper_bound_map_scales_by_zoom_level !! z = Some bound.
Proof.
  destruct zoom as [z|]; [simpl|discriminate].
  destruct (upper_bound_map_scales_by_zoom_level !! z) as [b|] eqn:E;
    [|discriminate].
  intros [= <-]. eauto.
Qed.

Lemma zoom_at (l cur : list band) i b :
  zoom_level <$> cur = zoom_level <$> l -> cur !! i = Some b ->
  exists o, l !! i = Some o /\ zoom_level o = zoom_level b.
Proof.
  intros Hz Hb.
  assert (H : (zoom_level <$> l) !! i = Some (zoom_level b))
    by (by rewrite <- Hz, list_lookup_fmap, Hb).
  rewrite list_lookup_fmap in H. destruct (l !! i) as [o|]; [|discriminate].
  injection H as H. eauto.
Qed.

Lemma scale_step_inv l k cur cur' :
  ascending l -> scale_inv l k cur -> scale_step cur k = Ok cur' ->
  scale_inv l (S k) cur'.
Proof.
  intros Hasc [Hz Hdone] Hstep. unfold scale_step in Hstep.
  assert (Hlen : length cur = length l).
  { by rewrite <- (length_fmap zoom_level cur), Hz, length_fmap. }
  destruct (cur !! k) as [s|] eqn:Hk.
  2:{ injection Hstep as <-. split; [done|]. intros i b Hi Hb.
      apply lookup_ge_None in Hk. pose proof (lookup_lt_Some _ _ _ Hb).
      apply Hdone; [lia|done]. }
  destruct (zoom_level s) as [z|] eqn:Hzs.
  2:{ injection Hstep as <-. split; [done|]. intros i b Hi Hb.
      destruct (decide (i = k)) as [->|Hne]; [|apply Hdone; [lia|done]].
      rewrite Hk in Hb. injection Hb as <-. intros z' Hz'. congruence. }
  inv_bind Hstep. rename a into hi, Ha into Hhi.
  inv_bind Hstep. rename a into lo, Ha into Hlo.
  injection Hstep as <-.
  apply scale_of_zoom_Ok in Hhi as (z0 & [= <-] & Hhi).
  destruct (zoom_at l cur k s Hz Hk) as (o & Ho & Hzo).
  split.
  - rewrite list_fmap_insert. cbn [set_scale_range zoom_level].
    rewrite <- Hz. apply list_insert_id. by rewrite list_lookup_fmap, Hk.
  - intros i b Hi Hb. destruct (decide (i = k)) as [->|Hne].
    2:{ rewrite list_lookup_insert_ne in Hb by done. apply Hdone; [lia|done]. }
    rewrite list_lookup_insert_eq in Hb by (by eapply lookup_lt_Some).
    injection Hb as <-. intros z' Hz'. cbn in Hz'. rewrite Hzs in Hz'.
    injection Hz' as <-. cbn [set_scale_range max_scale_denom min_scale_denom].
    split; [by rewrite Hhi|]. split; [eauto|].
    case_bool_decide as Hlast.
    + injection Hlo as <-. rewrite lookup_ge_None_2; [done|].
      apply lookup_lt_Some in Hk. lia.
    + inv_bind Hlo. rename a into next, Ha into Hnext.
      apply getitem_Ok in Hnext. replace (k + 1) with (S k) in Hnext by lia.
      destruct (zoom_at l cur (S k) next Hz Hnext) as (o' & Ho' & Hzo').
      rewrite Ho'. apply scale_of_zoom_Ok in Hlo as (z' & Hz' & Hlo).
      exists z'. split; [congruence|]. split; [|split; [by rewrite Hlo|eauto]].
      destruct (Hasc k o o' Ho Ho') as (y & y' & Hy & Hy' & Hlt).
      congruence.
Qed.

Lemma scale_loop_inv l n : forall k cur out,
  ascending l -> k + n = length l -> scale_inv l k cur ->
  for_each scale_step (seq k n) cur = Ok out ->
  scale_inv l (length l) out.
Proof.
  induction n as [|n IH]; intros k cur out Hasc Hn Hinv Hrun.
  - injection Hrun as <-. by replace (length l) with k by lia.
  - simpl in Hrun. inv_bind Hrun.
    apply (IH (S k) a); [done|lia| |done]. by eapply scale_step_inv.
Qed.

Lemma apply_scale_range_ok (l out : list band) :
  ascending l -> _apply_scale_range l = Ok out -> scale_ranges_ok out.
Proof.
  intros Hasc Hrun.
  eapply (scale_loop_inv l _ 0 l) in Hrun; [|done|done|split; [done|lia]].
  destruct Hrun as [Hz Hdone]. intros i b z Hb Hzb.
  assert (Hi : i < length l).
  { pose proof (lookup_lt_Some _ _ _ Hb) as Hlt.
    by rewrite <- (length_fmap zoom_level out), Hz, length_fmap in Hlt. }
  destruct (Hdone i b Hi Hb z Hzb) as (Hmax & Hmaxs & Hmin).
  split; [done|]. split; [done|].
  destruct (out !! S i) as [b'|] eqn:Hb'.
  - destruct (zoom_at l out (S i) b' Hz Hb') as (o' & Ho' & Hzo').
    rewrite Ho' in Hmin. destruct Hmin as (z' & Hz' & Hrest).
    exists z'. split; [congruence|done].
  - assert (Hn : l !! S i = None).
    { apply lookup_ge_None. apply lookup_ge_None in Hb'.
      by rewrite <- (length_fmap zoom_level l), <- Hz, length_fmap. }
    by rewrite Hn in Hmin.
Qed.

Lemma ascending_single (b : band) : ascending [b].
Proof. intros i x y Hx Hy. by destruct i. Qed.

Lemma ascending_before_range base vbz : ascending (bands_before_range base vbz).
Proof.
  unfold bands_before_range. case_bool_decide; [apply ascending_single|].
  eapply ascending_of_zooms; [apply zoom_level_resulting|].
  apply sorted_zooms_strict.
Qed.

Section Builder.
Variable resolver : layer -> call -> result (list PropertyValue).
Variable py_int : pyval -> result Z.

Lemma get_styles_inv (l : layer) (bands : list band) :
  get_styles resolver py_int l = Ok bands ->
  exists layer_id layer_type values vbz1 vbz2,
    l !! "id" = Some layer_id /\ l !! "type" = Some layer_type /\
    mapM (resolver l) (calls_of layer_type) = Ok values /\
    let st := foldl add_value
                (mkBand None None None
                   (if truthy layer_id then Some layer_id else None) ∅, ∅)
                (concat values) in
    add_layer_zoom py_int l "minzoom" st.2 = Ok vbz1 /\
    add_layer_zoom py_int l "maxzoom" vbz1 = Ok vbz2 /\
    _apply_scale_range (bands_before_range st.1 vbz2) = Ok bands.
Proof.
  unfold get_styles, layer_get. intros Hrun.
  destruct (l !! "id") as [layer_id|] eqn:Hid; [|discriminate].
  cbn [mbind result_bind] in Hrun.
  destruct (l !! "type") as [layer_type|] eqn:Hty.
  2:{ rewrite bool_decide_eq_false_2 in Hrun by (by intros [? ?]).
      discriminate. }
  rewrite bool_decide_eq_true_2 in Hrun by eauto.
  cbn [negb mbind result_bind] in Hrun.
  inv_bind Hrun. rename a into values, Ha into Hvalues.
  destruct (foldl add_value _ (concat values)) as [base vbz0] eqn:Hfold.
  inv_bind Hrun. rename a into vbz1, Ha into H1.
  inv_bind Hrun. rename a into vbz2, Ha into H2.
  inv_bind Hrun. rename a into sorted, Ha into Hsorted.
  exists layer_id, layer_type, values, vbz1, vbz2.
  rewrite Hfold. cbn [fst snd]. repeat (split; [done|]).
  fold (bands_before_range base vbz2) in Hsorted.
  apply sorted_by_zoom_ascending in Hsorted as ->;
    [done|apply ascending_before_range].
Qed.

(** The bands that [get_styles] returns have strictly ascending zoom
    levels; a band's [max_scale_denom] is the table's bound of its own zoom
    level and its [min_scale_denom] the bound of the next band's zoom level,
    or [1] for the last band. *)
Theorem get_styles_scale_ranges (l : layer) (bands : list band) :
  get_styles resolver py_int l = Ok bands -> scale_ranges_ok bands.
Proof.
  intros (id & ty & vs & v1 & v2 & _ & _ & _ & _ & _ & Hrun)%get_styles_inv.
  eapply apply_scale_range_ok; [|exact Hrun]. apply ascending_before_range.
Qed.

(** A layer without ["id"] raises [KeyError] whether it has a ["type"] or
    not; a layer with an ["id"] and without ["type"] raises the
    [RuntimeError] of line 275. *)
Theorem get_styles_missing_key (l : layer) :
  l !! "id" = None \/ l !! "type" = None ->
  get_styles resolver py_int l =
  Raise (match l !! "id" with
         | None => KeyError "id"
         | Some _ => RuntimeError "'type' not set on layer"
         end).
Proof.
  unfold get_styles, layer_get. intros Hmiss.
  destruct (l !! "id") as [v|]; [|done].
  destruct Hmiss as [|Hty]; [done|]. cbn [mbind result_bind].
  rewrite bool_decide_eq_false_2; [done|]. rewrite Hty. by intros [? ?].
Qed.

#[local] Instance same_styles_preorder : PreOrder (Forall2 same_style).
Proof.
  split.
  - intros l. apply Forall_Forall2_diag, Forall_forall. by intros x _.
  - intros l1 l2 l3 H12. revert l3.
    induction H12 as [|a b l1 l2 (Hz & Hn & Hp) _ IH]; intros l3 H23.
    + by apply Forall2_nil_inv_l in H23 as ->.
    + apply Forall2_cons_inv_l in H23 as (c & l3' & (Hz' & Hn' & Hp') & H23 & ->).
      constructor; [|by apply IH]. repeat split; congruence.
Qed.

Lemma apply_scale_range_same (l out : list band) :
  _apply_scale_range l = Ok out -> Forall2 same_style l out.
Proof.
  unfold _apply_scale_range. apply (for_each_rel (Forall2 same_style)).
  intros cur k cur' Hstep. unfold scale_step in Hstep.
  destruct (cur !! k) as [s|] eqn:Hk; [|injection Hstep as <-; reflexivity].
  destruct (zoom_level s) as [z|] eqn:Hzs; [|injection Hstep as <-; reflexivity].
  inv_bind Hstep. inv_bind Hstep. injection Hstep as <-.
  apply Forall2_same_length_lookup_2; [by rewrite length_insert|].
  intros i x y Hx Hy. destruct (decide (i = k)) as [->|Hne].
  - rewrite list_lookup_insert_eq in Hy by (by eapply lookup_lt_Some).
    injection Hy as <-. rewrite Hk in Hx. by injection Hx as <-.
  - rewrite list_lookup_insert_ne in Hy by done.
    rewrite Hx in Hy. by injection Hy as <-.
Qed.

Lemma props_foldl_set_prop (vs : list PropertyValue) : forall c,
  dom (props c) ⊆
  dom (props (foldl (fun c v => set_prop (pv_name v) (pv_value v) c) c vs)).
Proof.
  induction vs as [|v vs IH]; intros c; simpl; [done|].
  etransitivity; [|apply IH]. simpl. rewrite dom_insert_L. set_solver.
Qed.

Lemma name_foldl_set_prop (vs : list PropertyValue) : forall c,
  name (foldl (fun c v => set_prop (pv_name v) (pv_value v) c) c vs) = name c.
Proof. induction vs as [|v vs IH]; intros c; simpl; [done|]. by rewrite IH. Qed.

Lemma forward_above m zs : forall clone,
  Forall (fun b => dom (props clone) ⊆ dom (props b) /\ name b = name clone)
         (forward m clone zs).
Proof.
  induction zs as [|z zs IH]; intros clone; simpl; [constructor|].
  set (c' := foldl _ _ _).
  assert (Hc : dom (props clone) ⊆ dom (props c') /\ name c' = name clone).
  { split; [apply (props_foldl_set_prop _ (set_zoom_level z clone))|].
    unfold c'. by rewrite name_foldl_set_prop. }
  constructor; [done|].
  eapply Forall_impl; [apply IH|]. intros b [Hd Hn]. destruct Hc as [Hd' Hn'].
  split; [set_solver|congruence].
Qed.

Lemma forward_below_last m zs : forall clone lst,
  last (forward m clone zs) = Some lst ->
  Forall (fun b => dom (props b) ⊆ dom (props lst)) (forward m clone zs).
Proof.
  induction zs as [|z zs IH]; intros clone lst Hlast; simpl in *; [constructor|].
  set (c' := foldl _ _ _) in *.
  destruct (forward m c' zs) as [|b rest] eqn:Hf.
  - injection Hlast as <-. by repeat constructor.
  - rewrite last_cons_cons in Hlast. rewrite <- Hf in Hlast |- *.
    pose proof (IH c' lst Hlast) as Hall.
    constructor; [|done].
    pose proof (forward_above m zs c') as Habove.
    rewrite Forall_forall in Habove.
    apply last_Some_elem_of in Hlast. by apply Habove in Hlast as [? _].
Qed.

Lemma dom_fill_missing (next s : band) :
  dom (props (fill_missing next s)) = dom (props next) ∪ dom (props s).
Proof.
  unfold fill_missing. cbn [props].
  apply (map_fold_weak_ind
           (fun (r : gmap string pyval) (m : gmap string pyval) =>
              dom r = dom (props next) ∪ dom m)).
  - rewrite dom_empty_L. set_solver.
  - intros k v m r Hk IH. rewrite dom_insert_L.
    destruct (r !! k) eqn:Hr.
    + rewrite IH. apply elem_of_dom_2 in Hr. set_solver.
    + rewrite dom_insert_L, IH. set_solver.
Qed.

Lemma backfill_from_dom rest : forall s,
  Forall (fun n => dom (props n) ⊆ dom (props s)) rest ->
  Forall (fun n => dom (props n) = dom (props s)) (backfill_from s rest).
Proof.
  induction rest as [|n rest IH]; intros s Hall; simpl; [constructor|].
  apply Forall_cons in Hall as [Hn Hall].
  assert (Hd : dom (props (fill_missing n s)) = dom (props s)).
  { rewrite dom_fill_missing. set_solver. }
  constructor; [done|].
  eapply Forall_impl; [apply IH|].
  - eapply Forall_impl; [exact Hall|]. intros b Hb. cbv beta in *. by rewrite Hd.
  - intros b Hb. cbv beta in *. by rewrite <- Hd.
Qed.

Lemma backfill_dom (bw : list band) (s : band) :
  head bw = Some s ->
  Forall (fun n => dom (props n) ⊆ dom (props s)) bw ->
  Forall (fun n => dom (props n) = dom (props s)) (backfill bw).
Proof.
  destruct bw as [|x rest]; [done|]. intros [= ->] Hall. simpl.
  apply Forall_cons in Hall as [_ Hall].
  constructor; [done|]. by apply backfill_from_dom.
Qed.

Lemma before_range_same_dom base vbz :
  exists D, Forall (fun b => dom (props b) = D) (bands_before_range base vbz).
Proof.
  unfold bands_before_range. case_bool_decide.
  - exists (dom (props base)). by repeat constructor.
  - set (fw := forward vbz base (sorted_zooms vbz)).
    destruct (last fw) as [lst|] eqn:Hlast.
    + exists (dom (props lst)). rewrite Forall_reverse.
      apply backfill_dom.
      * by rewrite head_reverse.
      * rewrite Forall_reverse. by eapply forward_below_last.
    + apply last_None in Hlast. rewrite Hlast. exists ∅. constructor.
Qed.

(** All bands of a layer carry the same property names: values are
    carried forward to higher zoom levels and filled back to lower ones. *)
Theorem get_styles_same_properties (l : layer) (bands : list band) i j b b' :
  get_styles resolver py_int l = Ok bands ->
  bands !! i = Some b -> bands !! j = Some b' ->
  dom (props b) = dom (props b').
Proof.
  intros (id & ty & vs & v1 & v2 & _ & _ & _ & _ & _ & Hrun)%get_styles_inv Hb Hb'.
  apply apply_scale_range_same in Hrun.
  destruct (before_range_same_dom
              (foldl add_value
                 (mkBand None None None
                    (if truthy id then Some id else None) ∅, ∅)
                 (concat vs)).1 v2) as [D HD].
  rewrite Forall_lookup in HD.
  destruct (Forall2_lookup_r _ _ _ _ _ Hrun Hb) as (p & Hp & (_ & _ & Hpp)).
  destruct (Forall2_lookup_r _ _ _ _ _ Hrun Hb') as (p' & Hp' & (_ & _ & Hpp')).
  rewrite <- Hpp, <- Hpp'. rewrite (HD _ _ Hp), (HD _ _ Hp'). done.
Qed.

(** [get_styles] returns only bands with zoom levels from 0 to 24, the
    keys of the table. *)
Theorem get_styles_zoom_in_table (l : layer) (bands : list band) i b z :
  get_styles resolver py_int l = Ok bands ->
  bands !! i = Some b -> zoom_level b = Some z ->
  (0 <= z <= 24)%Z.
Proof.
  intros Hrun Hb Hz.
  destruct (get_styles_scale_ranges l bands Hrun i b z Hb Hz)
    as (Hmax & [hi Hhi] & _).
  rewrite Hhi in Hmax. symmetry in Hmax. by eapply table_domain.
Qed.

(** The scale range of a band is not empty, except for a band at zoom
    level 24, which is the last one and gets the range from 1 up to 0. *)
Theorem get_styles_range_not_empty (l : layer) (bands : list band) i b z :
  get_styles resolver py_int l = Ok bands ->
  bands !! i = Some b -> zoom_level b = Some z ->
  exists lo hi,
    min_scale_denom b = Some lo /\ max_scale_denom b = Some hi /\
    if bool_decide (z = 24%Z) then lo = 1%Z /\ hi = 0%Z /\ bands !! S i = None
    else (lo <= hi)%Z.
Proof.
  intros Hrun Hb Hz.
  destruct (get_styles_scale_ranges l bands Hrun i b z Hb Hz)
    as (Hmax & [hi Hhi] & Hmin).
  rewrite Hhi in Hmax. symmetry in Hmax.
  destruct (bands !! S i) as [b'|] eqn:Hb'.
  - destruct Hmin as (z' & Hz' & Hlt & Hmin & [lo Hlo]).
    rewrite Hlo in Hmin. symmetry in Hmin.
    exists lo, hi. repeat (split; [done|]).
    pose proof (table_domain _ _ Hmin). pose proof (table_domain _ _ Hmax).
    rewrite bool_decide_eq_false_2 by lia.
    eapply table_monotone; [exact Hmax|exact Hmin|lia].
  - exists 1%Z, hi. repeat (split; [done|]).
    case_bool_decide as H24.
    + subst z. split; [done|]. split; [|done].
      by apply table_last.
    + by eapply table_positive.
Qed.

Lemma add_value_zooms (vs : list PropertyValue) : forall st,
  dom (foldl add_value st vs).2 = dom st.2 ∪ zooms_of vs.
Proof.
  unfold zooms_of.
  induction vs as [|v vs IH]; intros [base vbz]; simpl.
  - set_solver.
  - rewrite IH. unfold add_value. cbn [fst snd].
    destruct (pv_zoom_level v) as [z|]; cbn [fst snd].
    + rewrite dom_insert_L. set_solver.
    + set_solver.
Qed.

Lemma zoom_level_foldl_add_value (vs : list PropertyValue) : forall st,
  zoom_level (foldl add_value st vs).1 = zoom_level st.1.
Proof.
  induction vs as [|v vs IH]; intros [base vbz]; simpl; [done|].
  rewrite IH. unfold add_value. by destruct (pv_zoom_level v).
Qed.

Lemma add_value_name (vs : list PropertyValue) : forall st,
  name (foldl add_value st vs).1 = name st.1.
Proof.
  induction vs as [|v vs IH]; intros [base vbz]; simpl; [done|].
  rewrite IH. unfold add_value. by destruct (pv_zoom_level v).
Qed.

Lemma add_layer_zoom_dom l key vbz vbz' :
  add_layer_zoom py_int l key vbz = Ok vbz' ->
  exists zs, layer_zoom py_int l key = Ok zs /\ dom vbz' = dom vbz ∪ zs.
Proof.
  unfold add_layer_zoom, layer_zoom. destruct (l !! key) as [v|].
  - intros H. inv_bind H. injection H as <-. rewrite Ha.
    eexists. split; [done|]. unfold ensure_zoom.
    destruct (vbz !! a) eqn:E.
    + apply elem_of_dom_2 in E. set_solver.
    + rewrite dom_insert_L. set_solver.
  - intros [= <-]. exists ∅. split; [done|]. set_solver.
Qed.

Lemma zoom_levels_before_range base vbz z :
  (exists i b, bands_before_range base vbz !! i = Some b /\
               zoom_level b = Some z) ->
  zoom_level base = None ->
  z ∈ dom vbz.
Proof.
  unfold bands_before_range. intros (i & b & Hb & Hz) Hbase.
  case_bool_decide as He.
  - destruct i; [|done]. injection Hb as <-. congruence.
  - assert (Hin : Some z ∈ zoom_level <$> reverse (backfill (reverse
                    (forward vbz base (sorted_zooms vbz))))).
    { rewrite <- Hz. apply list_elem_of_fmap. exists b. split; [done|].
      by eapply list_elem_of_lookup_2. }
    rewrite zoom_level_resulting in Hin.
    apply list_elem_of_fmap in Hin as (z' & [= <-] & Hin).
    unfold sorted_zooms in Hin. rewrite merge_sort_Permutation in Hin.
    by apply elem_of_elements in Hin.
Qed.

Lemma before_range_has_zoom base vbz z :
  z ∈ dom vbz ->
  exists i b, bands_before_range base vbz !! i = Some b /\
              zoom_level b = Some z.
Proof.
  intros Hz. unfold bands_before_range.
  rewrite bool_decide_eq_false_2 by (intros ->; set_solver).
  assert (Hin : Some z ∈ zoom_level <$> reverse (backfill (reverse
                    (forward vbz base (sorted_zooms vbz))))).
  { rewrite zoom_level_resulting. apply list_elem_of_fmap. exists z.
    split; [done|]. unfold sorted_zooms. rewrite merge_sort_Permutation.
    by apply elem_of_elements. }
  apply list_elem_of_fmap in Hin as (b & Hb & Hin).
  apply list_elem_of_lookup_1 in Hin as [i Hi]. eauto.
Qed.

(** The zoom levels of the bands are those of the property values the
    resolver returned together with [int(minzoom)] and [int(maxzoom)] of the
    layer, and no others. *)
Theorem get_styles_zoom_levels (l : layer) (bands : list band) (z : Z) :
  get_styles resolver py_int l = Ok bands ->
  exists layer_type values lo hi,
    l !! "type" = Some layer_type /\
    mapM (resolver l) (calls_of layer_type) = Ok values /\
    layer_zoom py_int l "minzoom" = Ok lo /\ layer_zoom py_int l "maxzoom" = Ok hi /\
    ((exists i b, bands !! i = Some b /\ zoom_level b = Some z) <->
     z ∈ zooms_of (concat values) ∪ lo ∪ hi).
Proof.
  intros (id & ty & vs & v1 & v2 & _ & Hty & Hvs & H1 & H2 & Hrun)%get_styles_inv.
  cbv zeta in *.
  set (st := foldl add_value _ (concat vs)) in *.
  apply add_layer_zoom_dom in H1 as (lo & Hlo & Hd1).
  apply add_layer_zoom_dom in H2 as (hi & Hhi & Hd2).
  exists ty, vs, lo, hi. repeat (split; [done|]).
  unfold st in Hd1. rewrite add_value_zooms in Hd1. cbn [snd] in Hd1.
  rewrite dom_empty_L in Hd1.
  assert (Hdom : dom v2 = zooms_of (concat vs) ∪ lo ∪ hi) by set_solver.
  rewrite <- Hdom. pose proof (apply_scale_range_same _ _ Hrun) as Hsame.
  split.
  - intros (i & b & Hb & Hz).
    destruct (Forall2_lookup_r _ _ _ _ _ Hsame Hb) as (p & Hp & (Hzp & _ & _)).
    apply (zoom_levels_before_range st.1 v2 z).
    + exists i, p. split; [done|congruence].
    + unfold st. by rewrite zoom_level_foldl_add_value.
  - intros Hz.
    destruct (before_range_has_zoom st.1 v2 z Hz) as (i & p & Hp & Hzp).
    destruct (Forall2_lookup_l _ _ _ _ _ Hsame Hp) as (b & Hb & (Hzb & _ & _)).
    exists i, b. split; [done|congruence].
Qed.

Lemma backfill_from_name rest : forall s,
  Forall (fun n => name n = name s) rest ->
  Forall (fun n => name n = name s) (backfill_from s rest).
Proof.
  induction rest as [|n rest IH]; intros s Hall; simpl; [constructor|].
  apply Forall_cons in Hall as [Hn Hall].
  assert (Hf : name (fill_missing n s) = name s).
  { unfold fill_missing. cbn [name]. rewrite Hn. by destruct (name s). }
  constructor; [done|].
  eapply Forall_impl; [apply IH|].
  - eapply Forall_impl; [exact Hall|]. intros b Hb. cbv beta in *. congruence.
  - intros b Hb. cbv beta in *. congruence.
Qed.

Lemma backfill_name (bw : list band) (N : option pyval) :
  Forall (fun n => name n = N) bw -> Forall (fun n => name n = N) (backfill bw).
Proof.
  destruct bw as [|s rest]; [done|]. intros Hall. simpl.
  apply Forall_cons in Hall as [Hs Hall]. constructor; [done|]. subst N.
  by apply backfill_from_name.
Qed.

Lemma before_range_name base vbz :
  Forall (fun b => name b = name base) (bands_before_range base vbz).
Proof.
  unfold bands_before_range. case_bool_decide; [by repeat constructor|].
  rewrite Forall_reverse. apply backfill_name. rewrite Forall_reverse.
  eapply Forall_impl; [apply forward_above|]. by intros b [_ Hn].
Qed.

(** Every band has the layer's id as its name, and no name when the id is
    falsy. *)
Theorem get_styles_name (l : layer) (bands : list band) i b :
  get_styles resolver py_int l = Ok bands ->
  bands !! i = Some b ->
  exists layer_id,
    l !! "id" = Some layer_id /\
    name b = if truthy layer_id then Some layer_id else None.
Proof.
  intros (id & ty & vs & v1 & v2 & Hid & _ & _ & _ & _ & Hrun)%get_styles_inv Hb.
  exists id. split; [done|].
  apply apply_scale_range_same in Hrun.
  destruct (Forall2_lookup_r _ _ _ _ _ Hrun Hb) as (p & Hp & (_ & <- & _)).
  pose proof (before_range_name
                (foldl add_value
                   (mkBand None None None
                      (if truthy id then Some id else None) ∅, ∅)
                   (concat vs)).1 v2) as Hall.
  rewrite Forall_lookup in Hall. rewrite (Hall _ _ Hp).
  by rewrite add_value_name.
Qed.

(** [get_styles] returns either one band without zoom level and without
    scale range, or at least one band and only bands with a zoom level. *)
Theorem get_styles_one_or_zoomed (l : layer) (bands : list band) :
  get_styles resolver py_int l = Ok bands ->
  (exists b, bands = [b] /\ zoom_level b = None /\
             min_scale_denom b = None /\ max_scale_denom b = None) \/
  (bands ≠ [] /\
   forall i b, bands !! i = Some b -> is_Some (zoom_level b)).
Proof.
  intros (id & ty & vs & v1 & v2 & _ & _ & _ & _ & _ & Hrun)%get_styles_inv.
  cbv zeta in Hrun. set (st := foldl add_value _ (concat vs)) in *.
  assert (Hbase : zoom_level st.1 = None /\ min_scale_denom st.1 = None /\
                  max_scale_denom st.1 = None).
  { unfold st. generalize (concat vs). intros vals.
    cut (forall s : band * gmap Z (list PropertyValue),
           zoom_level s.1 = None /\ min_scale_denom s.1 = None /\
           max_scale_denom s.1 = None ->
           zoom_level (foldl add_value s vals).1 = None /\
           min_scale_denom (foldl add_value s vals).1 = None /\
           max_scale_denom (foldl add_value s vals).1 = None).
    { intros Hcut. by apply Hcut. }
    induction vals as [|v vals IH]; intros s Hs; simpl; [done|].
    apply IH. unfold add_value. by destruct (pv_zoom_level v). }
  destruct Hbase as (Hz & Hlo & Hhi).
  unfold bands_before_range in Hrun. case_bool_decide as He.
  - left. exists st.1. unfold _apply_scale_range in Hrun.
    cbn in Hrun. unfold scale_step in Hrun. cbn in Hrun. rewrite Hz in Hrun.
    by injection Hrun as <-.
  - right. pose proof (apply_scale_range_same _ _ Hrun) as Hsame.
    set (pre := reverse _) in *.
    assert (Hpz : zoom_level <$> pre = Some <$> sorted_zooms v2)
      by apply zoom_level_resulting.
    assert (Hne : sorted_zooms v2 ≠ []).
    { unfold sorted_zooms. intros Hnil.
      apply (f_equal length) in Hnil.
      rewrite merge_sort_Permutation in Hnil. simpl in Hnil.
      apply nil_length_inv, elements_empty_inv, leibniz_equiv in Hnil.
      by apply dom_empty_inv_L in Hnil. }
    split.
    + intros ->. apply Forall2_nil_inv_r in Hsame.
      rewrite Hsame in Hpz. by destruct (sorted_zooms v2).
    + intros i b Hb.
      destruct (Forall2_lookup_r _ _ _ _ _ Hsame Hb) as (p & Hp & (Hzp & _ & _)).
      assert (Hi : (zoom_level <$> pre) !! i = Some (zoom_level p))
        by (by rewrite list_lookup_fmap, Hp).
      rewrite Hpz, list_lookup_fmap in Hi.
      destruct (sorted_zooms v2 !! i) as [z|]; [|done].
      injection Hi as Hi. rewrite <- Hzp, <- Hi. eauto.
Qed.

End Builder.

End StyleFacts.

Section BuilderExamples.
Import Styles Bands StylesExample.

Lemma get_styles_scale_ranges_witness :
  exists bands,
    get_styles resolve int_of water = Ok bands /\ scale_ranges_ok bands.
Proof.
  eexists. split; [vm_compute; reflexivity|].
  eapply (get_styles_scale_ranges resolve int_of water).
  vm_compute. reflexivity.
Defined.

Lemma get_styles_missing_key_witness :
  (delete "id" water !! "id" = None \/ delete "id" water !! "type" = None) /\
  get_styles resolve int_of (delete "id" water) = Raise (KeyError "id").
Proof.
  assert (H : delete "id" water !! "id" = None \/
              delete "id" water !! "type" = None)
    by (left; vm_compute; reflexivity).
  split; [exact H|].
  exact (get_styles_missing_key resolve int_of (delete "id" water) H).
Defined.

Lemma get_styles_same_properties_witness :
  exists bands b b',
    get_styles resolve int_of water = Ok bands /\
    bands !! 0 = Some b /\ bands !! 2 = Some b' /\
    dom (props b) = dom (props b').
Proof.
  eexists _, _, _. split; [vm_compute; reflexivity|].
  split; [reflexivity|]. split; [reflexivity|].
  eapply (get_styles_same_properties resolve int_of water _ 0 2);
    vm_compute; reflexivity.
Defined.

Lemma get_styles_zoom_in_table_witness :
  exists bands b,
    get_styles resolve int_of water = Ok bands /\
    bands !! 1 = Some b /\ zoom_level b = Some 5%Z /\ (0 <= 5 <= 24)%Z.
Proof.
  eexists _, _. split; [vm_compute; reflexivity|].
  split; [reflexivity|]. split; [reflexivity|].
  eapply (get_styles_zoom_in_table resolve int_of water _ 1 _ 5%Z);
    vm_compute; reflexivity.
Defined.

Lemma get_styles_range_not_empty_witness :
  exists bands b,
    get_styles resolve int_of water = Ok bands /\
    bands !! 1 = Some b /\ zoom_level b = Some 5%Z /\
    exists lo hi,
      min_scale_denom b = Some lo /\ max_scale_denom b = Some hi /\
      if bool_decide (5%Z = 24%Z)
      then lo = 1%Z /\ hi = 0%Z /\ bands !! 2 = None
      else (lo <= hi)%Z.
Proof.
  eexists _, _. split; [vm_compute; reflexivity|].
  split; [reflexivity|]. split; [reflexivity|].
  eapply (get_styles_range_not_empty resolve int_of water _ 1 _ 5%Z);
    vm_compute; reflexivity.
Defined.

Lemma get_styles_zoom_levels_witness :
  exists bands,
    get_styles resolve int_of water = Ok bands /\
    exists layer_type values lo hi,
      water !! "type" = Some layer_type /\
      mapM (resolve water) (calls_of layer_type) = Ok values /\
      layer_zoom int_of water "minzoom" = Ok lo /\
      layer_zoom int_of water "maxzoom" = Ok hi /\
      ((exists i b, bands !! i = Some b /\ zoom_level b = Some 3%Z) <->
       3%Z ∈ zooms_of (concat values) ∪ lo ∪ hi).
Proof.
  eexists. split; [vm_compute; reflexivity|].
  eapply (get_styles_zoom_levels resolve int_of water _ 3%Z).
  vm_compute. reflexivity.
Defined.

Lemma get_styles_name_witness :
  exists bands b,
    get_styles resolve int_of water = Ok bands /\
    bands !! 0 = Some b /\
    exists layer_id,
      water !! "id" = Some layer_id /\
      name b = if truthy layer_id then Some layer_id else None.
Proof.
  eexists _, _. split; [vm_compute; reflexivity|]. split; [reflexivity|].
  eapply (get_styles_name resolve int_of water _ 0); vm_compute; reflexivity.
Defined.

Lemma get_styles_one_or_zoomed_witness :
  exists bands,
    get_styles resolve int_of (delete "minzoom" (delete "paint" water))
      = Ok bands /\
    ((exists b, bands = [b] /\ zoom_level b = None /\
                min_scale_denom b = None /\ max_scale_denom b = None) \/
     (bands ≠ [] /\
      forall i b, bands !! i = Some b -> is_Some (zoom_level b))).
Proof.
  eexists. split; [vm_compute; reflexivity|].
  eapply (get_styles_one_or_zoomed resolve int_of
           (delete "minzoom" (delete "paint" water))).
  vm_compute. reflexivity.
Defined.

(** The fill layer [water]: stops at zoom 5 and 10 and a [minzoom] of 3
    give three bands; the opacity of zoom 5 is filled back to zoom 3. *)
Example get_styles_water :
  opacity_by_zoom (get_styles resolve int_of water)
  = Some [(Some 3, Some 25000000, Some 200000000, Some (PStr "0.5"));
          (Some 5, Some 750000, Some 25000000, Some (PStr "0.5"));
          (Some 10, Some 1, Some 750000, Some (PStr "1"))]%Z.
Proof. vm_compute. reflexivity. Qed.

(** A [minzoom] outside the table makes [get_styles] raise. *)
Example get_styles_minzoom_30 :
  get_styles resolve int_of (<["minzoom" := PAtom (AInt 30)]> water)
  = Raise (KeyError "30").
Proof. vm_compute. reflexivity. Qed.

End BuilderExamples.

Section PassBounds.
Import Pass.

Lemma length_groupby_le {A K} `{EqDecision K} (key : A -> K) (l : list A) :
  length (groupby key l) <= length l.
Proof.
  induction l as [|x l IH]; simpl; [done|].
  destruct (groupby key l) as [|[k g] gs]; simpl in *; [lia|].
  destruct (decide (key x = k)); simpl; lia.
Qed.

Lemma filterM_length {A} (p : A -> result bool) (l r : list A) :
  filterM p l = Ok r -> length r <= length l.
Proof.
  revert r. induction l as [|x l IH]; intros r H; simpl in H.
  - by injection H as <-.
  - inv_bind H. inv_bind H. injection H as <-.
    specialize (IH _ Ha0). destruct a; simpl; lia.
Qed.

Lemma filterM_all {A} (p : A -> result bool) (l r : list A) x :
  filterM p l = Ok r -> x ∈ l -> exists b, p x = Ok b.
Proof.
  revert r. induction l as [|y l IH]; intros r H Hx; [by apply elem_of_nil in Hx|].
  simpl in H. inv_bind H. inv_bind H.
  apply elem_of_cons in Hx as [->|Hx]; eauto.
Qed.

(** The loop writes [rendering_pass] and nothing else, and a band's pass is
    at most the number of bands before it. *)
Theorem rendering_pass_frame styles out i st :
  assign_rendering_passes styles = Ok out ->
  styles !! i = Some st ->
  length out = length styles /\
  exists n, out !! i = Some (set_rendering_pass n st) /\ n <= i.
Proof.
  intros Hrun Hst.
  destruct (assign_rendering_passes_spec _ _ Hrun) as [Hlen Hall].
  split; [done|]. destruct (Hall i st Hst) as (n & Hn & Hout).
  exists n. split; [done|].
  unfold pass_of in Hn. inv_bind Hn. inv_bind Hn. injection Hn as <-.
  apply filterM_length in Ha0. rewrite length_take in Ha0.
  pose proof (length_groupby_le name a0). lia.
Qed.

(** The loop returns only if every band has a name, and only if no band
    with a zoom level other than 0 comes after a band of another name and
    the same rule that has no zoom level. *)
Theorem rendering_pass_returns_only_if styles out j st :
  assign_rendering_passes styles = Ok out ->
  styles !! j = Some st ->
  is_Some (name st) /\
  forall z i p,
    zoom_level st = Some z -> z ≠ 0%Z ->
    i < j -> styles !! i = Some p ->
    name p ≠ name st -> rule p = rule st ->
    is_Some (zoom_level p).
Proof.
  intros Hrun Hst.
  destruct (assign_rendering_passes_spec _ _ Hrun) as [_ Hall].
  destruct (Hall j st Hst) as (n & Hn & _).
  unfold pass_of in Hn. inv_bind Hn. inv_bind Hn.
  unfold get_name in Ha. destruct (name st) as [nm|] eqn:Hnm; [|discriminate].
  injection Ha as <-. split; [eauto|].
  intros z i p Hz Hz0 Hij Hp Hne Hrule.
  assert (Hin : p ∈ take j styles).
  { apply list_elem_of_lookup. exists i. by rewrite lookup_take_lt. }
  destruct (filterM_all _ _ _ p Ha0 Hin) as [b Hb].
  unfold same_target, get_name in Hb.
  destruct (name p) as [pn|]; [|discriminate]. cbn [mbind result_bind] in Hb.
  rewrite bool_decide_eq_true_2 in Hb by congruence.
  rewrite bool_decide_eq_true_2 in Hb by done.
  rewrite Hz in Hb. rewrite bool_decide_eq_false_2 in Hb by done.
  destruct (zoom_level p); [eauto|discriminate].
Qed.

End PassBounds.

Section PassBoundsExamples.
Import Pass.

Lemma rendering_pass_frame_witness :
  exists out,
    assign_rendering_passes
      [band "A" None (Some 5%Z); band "B" None (Some 5%Z)] = Ok out /\
    length out = length [band "A" None (Some 5%Z); band "B" None (Some 5%Z)] /\
    exists n, out !! 1 = Some (set_rendering_pass n (band "B" None (Some 5%Z)))
              /\ n <= 1.
Proof.
  eexists. split; [vm_compute; reflexivity|].
  eapply (rendering_pass_frame
           [band "A" None (Some 5%Z); band "B" None (Some 5%Z)] _ 1);
    vm_compute; reflexivity.
Defined.

Lemma rendering_pass_returns_only_if_witness :
  exists out,
    assign_rendering_passes
      [band "A" None (Some 5%Z); band "B" None (Some 5%Z)] = Ok out /\
    is_Some (name (band "B" None (Some 5%Z))) /\
    forall z i p,
      zoom_level (band "B" None (Some 5%Z)) = Some z -> z ≠ 0%Z ->
      i < 1 ->
      [band "A" None (Some 5%Z); band "B" None (Some 5%Z)] !! i = Some p ->
      name p ≠ name (band "B" None (Some 5%Z)) ->
      rule p = rule (band "B" None (Some 5%Z)) ->
      is_Some (zoom_level p).
Proof.
  eexists. split; [vm_compute; reflexivity|].
  eapply (rendering_pass_returns_only_if
           [band "A" None (Some 5%Z); band "B" None (Some 5%Z)] _ 1);
    vm_compute; reflexivity.
Defined.
End PassBoundsExamples.

Section RefMore.
Import Refs.

(** Without any ["ref"] key the document is left as it is, whatever the
    recursion depth the interpreter still allows. *)
Theorem process_refs_without_ref depth (layers : list layer) :
  Forall (fun l : layer => l !! "ref" = None) layers ->
  process_refs depth layers = Ok layers.
Proof.
  intros Hall. unfold process_refs.
  assert (Hstep : forall i, process_step depth layers i = Ok layers).
  { intros i. unfold process_step.
    destruct (layers !! i) as [l|] eqn:Hl; [|done].
    rewrite Forall_lookup in Hall. rewrite (Hall i l Hl).
    by rewrite bool_decide_eq_false_2 by (by intros [? ?]). }
  generalize (seq 0 (length layers)). intros idxs.
  induction idxs as [|i idxs IH]; simpl; [done|].
  rewrite Hstep. exact IH.
Qed.

(** A layer that refers to a root layer gets every property of the root
    except [paint], its id included, keeps its own [paint] and the
    properties the root does not have, and no other layer is written. *)
Theorem ref_to_root depth idx t (layers : list layer) (lyr target : layer) :
  layers !! idx = Some lyr ->
  truthy (_get_value_safe lyr "ref") = true ->
  first_match (_get_value_safe lyr "ref") layers = Some t ->
  layers !! t = Some target ->
  t ≠ idx ->
  truthy (_get_value_safe target "ref") = false ->
  exists out lyr',
    _apply_source_layer (S (S depth)) idx layers = Ok out /\
    out !! idx = Some lyr' /\
    (forall k, lyr' !! k =
               if decide (k = "paint") then lyr !! k
               else match target !! k with
                    | Some v => Some v
                    | None => lyr !! k
                    end) /\
    (forall j, j ≠ idx -> out !! j = layers !! j).
Proof.
  intros Hidx Href Hfirst Ht Hne Hroot.
  exists (<[idx := copy_props target lyr]> layers), (copy_props target lyr).
  split; [by apply (apply_source_layer_root depth idx t)|].
  split; [apply list_lookup_insert_eq; by eapply lookup_lt_Some|].
  split; [apply copy_props_lookup|].
  intros j Hj. by apply list_lookup_insert_ne.
Qed.

End RefMore.

Section RefMoreExamples.
Import Refs.

Lemma process_refs_without_ref_witness :
  Forall (fun l : layer => l !! "ref" = None) [layer_a] /\
  process_refs 0 [layer_a] = Ok [layer_a].
Proof.
  assert (H : Forall (fun l : layer => l !! "ref" = None) [layer_a]).
  { constructor; [vm_compute; reflexivity|constructor]. }
  split; [exact H|]. exact (process_refs_without_ref 0 [layer_a] H).
Defined.

Lemma ref_to_root_witness :
  exists out lyr',
    _apply_source_layer 2 1 [layer_a; layer_b] = Ok out /\
    out !! 1 = Some lyr' /\
    (forall k, lyr' !! k =
               if decide (k = "paint") then layer_b !! k
               else match layer_a !! k with
                    | Some v => Some v
                    | None => layer_b !! k
                    end) /\
    (forall j, j ≠ 1 -> out !! j = [layer_a; layer_b] !! j).
Proof.
  apply (ref_to_root 0 1 0 [layer_a; layer_b] layer_b layer_a);
    try (vm_compute; reflexivity). lia.
Defined.

Lemma apply_source_layer_self_witness :
  exists self : layer,
    self = mk [("id", PStr "x"); ("ref", PStr "x")] /\
    _apply_source_layer 1000 0 [self] = Raise RecursionError.
Proof.
  eexists. split; [reflexivity|].
  eapply (apply_source_layer_self 1000 0); vm_compute; reflexivity.
Defined.
End RefMoreExamples.
